(** * Steam harvester: a shallow embedding of [scrapper.py]

    The development follows the source file top-down: the checkpointed
    identifier sets of [CursorManager], the bounded [ThreadSafeCounter],
    the retrying fetch layer ([make_request], [get_app_reviews]) and the
    per-item worker routine [processar_um_jogo].

    Python integers are unbounded, so they are modelled by [Z]; Python
    sets of integers by [gset Z].  Every method of [CursorManager] that
    touches the sets runs under [main_lock], and every method of
    [ThreadSafeCounter] under its own lock, so a concurrent execution is
    a sequence of these atomic method bodies: the models below are the
    bodies, and "any interleaving" is "any list of operations". *)

From Stdlib Require Import ZArith QArith Qminmax List Bool Ascii String Lia.
From stdpp Require Import base gmap sets list strings.

Local Open Scope Z_scope.

#[local] Set Warnings "-clear-no-such-hyp".

(** ** Python truthiness of the values the code branches on *)

Definition truthy_int (z : Z) : bool := negb (z =? 0).

Definition truthy_opt_int (o : option Z) : bool :=
  match o with
  | Some z => truthy_int z
  | None => false
  end.

Definition truthy_str (s : string) : bool :=
  match s with
  | EmptyString => false
  | _ => true
  end.

Definition truthy_opt_str (o : option string) : bool :=
  match o with
  | Some s => truthy_str s
  | None => false
  end.

(** ** CursorManager *)

Module CursorManager.

(** The instance attributes that the methods read and write. *)
Record t : Type := mk {
  processed_appids : gset Z;
  reserved_appids : gset Z;
  failed_appids : gset Z;
  total_games_found : Z;
  last_batch_index : Z
}.

(** [__init__]: three empty sets and zeroed counters. *)
Definition init : t := mk ∅ ∅ ∅ 0 0.

Definition with_reserved (cm : t) (r : gset Z) : t :=
  mk (processed_appids cm) r (failed_appids cm)
     (total_games_found cm) (last_batch_index cm).

(** [reserve_appid]: refuse an id that is in any of the three sets,
    otherwise add it to [reserved_appids]. *)
Definition reserve_appid (cm : t) (appid : Z) : bool * t :=
  if bool_decide (appid ∈ processed_appids cm)
     || bool_decide (appid ∈ reserved_appids cm)
     || bool_decide (appid ∈ failed_appids cm)
  then (false, cm)
  else (true, with_reserved cm ({[appid]} ∪ reserved_appids cm)).

(** [mark_processed]: discard from [reserved_appids]; on success add to
    [processed_appids] and discard from [failed_appids]; otherwise add
    to [failed_appids] (and nothing else). *)
Definition mark_processed (cm : t) (appid : Z) (success : bool) : t :=
  let reserved := reserved_appids cm ∖ {[appid]} in
  if success
  then mk ({[appid]} ∪ processed_appids cm) reserved
          (failed_appids cm ∖ {[appid]})
          (total_games_found cm) (last_batch_index cm)
  else mk (processed_appids cm) reserved
          ({[appid]} ∪ failed_appids cm)
          (total_games_found cm) (last_batch_index cm).

(** [release_reservation]: discard from [reserved_appids]. *)
Definition release_reservation (cm : t) (appid : Z) : t :=
  with_reserved cm (reserved_appids cm ∖ {[appid]}).

(** A catalogue entry: [game.get('appid')] is [None] when the key is
    missing; the name is carried along untouched. *)
Record game : Type := mk_game {
  appid : option Z;
  name : string
}.

(** The test [appid and appid not in all_blocked] of the loop body. *)
Definition eligible (all_blocked : gset Z) (g : game) : bool :=
  match appid g with
  | Some a => truthy_int a && negb (bool_decide (a ∈ all_blocked))
  | None => false
  end.

(** The loop of [get_remaining_games]: append in input order. *)
Fixpoint remaining_loop (all_blocked : gset Z) (all_games : list game)
  : list game :=
  match all_games with
  | [] => []
  | g :: rest =>
      if eligible all_blocked g
      then g :: remaining_loop all_blocked rest
      else remaining_loop all_blocked rest
  end.

Definition get_remaining_games (cm : t) (all_games : list game)
  : list game :=
  let all_blocked := processed_appids cm ∪ reserved_appids cm in
  remaining_loop all_blocked all_games.

(** Python's [x in s] for the value returned by [game.get('appid')]:
    [None] is a member of no set of integers. *)
Definition py_in (o : option Z) (s : gset Z) : Prop :=
  match o with
  | Some a => a ∈ s
  | None => False
  end.

#[global] Instance py_in_dec (o : option Z) (s : gset Z)
  : Decision (py_in o s).
Proof. destruct o; simpl; apply _. Defined.

(** The condition under which an entry is handed out: it carries a
    truthy appid that is neither processed nor reserved. *)
Definition offered (cm : t) (g : game) : Prop :=
  truthy_opt_int (appid g) = true
  ∧ ¬ py_in (appid g) (processed_appids cm)
  ∧ ¬ py_in (appid g) (reserved_appids cm).

#[global] Instance offered_dec (cm : t) (g : game)
  : Decision (offered cm g).
Proof. unfold offered. apply _. Defined.

(** *** Sequences of atomic operations *)

Inductive op : Type :=
| Reserve (a : Z)
| MarkProcessed (a : Z) (success : bool)
| Release (a : Z).

(** One operation: the value it returns, if any, and the next state. *)
Definition step (cm : t) (o : op) : option bool * t :=
  match o with
  | Reserve a => let '(b, cm') := reserve_appid cm a in (Some b, cm')
  | MarkProcessed a s => (None, mark_processed cm a s)
  | Release a => (None, release_reservation cm a)
  end.

(** Run a list of operations, logging each one with what it returned. *)
Fixpoint run_log (cm : t) (ops : list op)
  : list (op * option bool) * t :=
  match ops with
  | [] => ([], cm)
  | o :: rest =>
      let '(r, cm1) := step cm o in
      let '(log, cm2) := run_log cm1 rest in
      ((o, r) :: log, cm2)
  end.

Definition run (cm : t) (ops : list op) : t := (run_log cm ops).2.

(** Does this log entry record a successful reservation of [id]? *)
Definition granted (id : Z) (e : op * option bool) : bool :=
  match e with
  | (Reserve a, Some true) => bool_decide (a = id)
  | _ => false
  end.

(** The operation neither releases nor marks the reservation of [id]. *)
Definition keeps (id : Z) (o : op) : bool :=
  match o with
  | Reserve _ => true
  | MarkProcessed a _ => negb (bool_decide (a = id))
  | Release a => negb (bool_decide (a = id))
  end.

End CursorManager.

(** ** ThreadSafeCounter *)

Module ThreadSafeCounter.

(** [_value] and [_max_value]; the latter is [None] by default. *)
Record t : Type := mk {
  value : Z;
  max_value : option Z
}.

(** The values a Python expression [a and b] can produce here. *)
Inductive pyval : Type :=
| PyNone
| PyInt (z : Z)
| PyBool (b : bool).

Definition truthy (v : pyval) : bool :=
  match v with
  | PyNone => false
  | PyInt z => truthy_int z
  | PyBool b => b
  end.

(** [self._max_value and self._value >= self._max_value]: the left
    operand itself when it is falsy, the comparison otherwise. *)
Definition limit_expr (c : t) : pyval :=
  match max_value c with
  | None => PyNone
  | Some m => if truthy_int m then PyBool (m <=? value c) else PyInt m
  end.

(** [increment]: returns [(accepted, value)] and the next counter. *)
Definition increment (c : t) : (bool * Z) * t :=
  if truthy (limit_expr c)
  then ((false, value c), c)
  else ((true, value c + 1), mk (value c + 1) (max_value c)).

(** [decrement]: [max(0, value - 1)]. *)
Definition decrement (c : t) : Z * t :=
  let v := Z.max 0 (value c - 1) in
  (v, mk v (max_value c)).

Definition set_max (c : t) (m : option Z) : t := mk (value c) m.

(** [reached_limit] returns the expression as it is, not a [bool]. *)
Definition reached_limit (c : t) : pyval := limit_expr c.

Inductive op : Type :=
| Increment
| Decrement.

Definition step (c : t) (o : op) : t :=
  match o with
  | Increment => (increment c).2
  | Decrement => (decrement c).2
  end.

Definition run (c : t) (ops : list op) : t := fold_left step ops c.

End ThreadSafeCounter.

(** ** Checkpoint files: [CursorManager.load_state] and [save_state] *)

Module Checkpoint.

(** What [set(data.get(key, []))] meets under one key of the parsed
    object: no such key, a list of integers, or a value that [set]
    cannot iterate (the call raises). *)
Inductive set_field : Type :=
| FieldMissing
| FieldList (l : list Z)
| FieldNotIterable.

(** The contents of a file as [load_state] experiences them.
    [Unreadable] stands for every case in which [json.load] or the first
    [data.get] raises: an empty or truncated file, malformed JSON, a
    document that is not an object. *)
Inductive contents : Type :=
| Unreadable
| Object (processed reserved failed : set_field)
         (total last : option Z) (timestamp : option Q).

(** The three paths the class works with; [None] is a missing file. *)
Record disk : Type := mk_disk {
  progress_file : option contents;
  backup_file : option contents;
  temp_file : option contents
}.

Definition read_set (f : set_field) : option (gset Z) :=
  match f with
  | FieldMissing => Some ∅
  | FieldList l => Some (list_to_set l)
  | FieldNotIterable => None
  end.

(** The body of the [try] block of [load_state]: the five assignments to
    [state] in order.  When one raises, the earlier ones have already
    taken effect.  Returns whether the [break] was reached. *)
Definition try_read (c : contents) (state : CursorManager.t)
  : bool * CursorManager.t :=
  match c with
  | Unreadable => (false, state)
  | Object p r f total last _ =>
      match read_set p with
      | None => (false, state)
      | Some ps =>
          let s1 := CursorManager.mk ps
                      (CursorManager.reserved_appids state)
                      (CursorManager.failed_appids state)
                      (CursorManager.total_games_found state)
                      (CursorManager.last_batch_index state) in
          match read_set r with
          | None => (false, s1)
          | Some rs =>
              let s2 := CursorManager.mk ps rs
                          (CursorManager.failed_appids state)
                          (CursorManager.total_games_found state)
                          (CursorManager.last_batch_index state) in
              match read_set f with
              | None => (false, s2)
              | Some fs =>
                  (true, CursorManager.mk ps rs fs
                           (default 0 total) (default 0 last))
              end
          end
      end
  end.

(** The [for file_path in [...]] loop: skip missing files, stop at the
    first file read without an exception. *)
Fixpoint load_loop (files : list (option contents))
    (state : CursorManager.t) : CursorManager.t :=
  match files with
  | [] => state
  | None :: rest => load_loop rest state
  | Some c :: rest =>
      let '(ok, state') := try_read c state in
      if ok then state' else load_loop rest state'
  end.

(** [load_state]: the manager's attributes after the call (they are
    overwritten with [state], which is also the return value). *)
Definition load_state (d : disk) : CursorManager.t :=
  load_loop [progress_file d; backup_file d] CursorManager.init.

(** The dictionary [save_state] dumps; [list(set)] is an enumeration of
    the set in some order, [now] is [time.time()]. *)
Definition snapshot (cm : CursorManager.t) (now : Q) : contents :=
  Object (FieldList (elements (CursorManager.processed_appids cm)))
         (FieldList (elements (CursorManager.reserved_appids cm)))
         (FieldList (elements (CursorManager.failed_appids cm)))
         (Some (CursorManager.total_games_found cm))
         (Some (CursorManager.last_batch_index cm))
         (Some now).

(** The file-system steps of [save_state]. *)

(** [os.replace(progress_file, backup_file)] *)
Definition rotate (d : disk) : disk :=
  mk_disk None (progress_file d) (temp_file d).

(** [open(temp_file, 'w')]: the file exists and is empty. *)
Definition truncate_temp (d : disk) : disk :=
  mk_disk (progress_file d) (backup_file d) (Some Unreadable).

(** [json.dump(state, f)] completed and the file closed. *)
Definition write_temp (c : contents) (d : disk) : disk :=
  mk_disk (progress_file d) (backup_file d) (Some c).

(** [os.replace(temp_file, progress_file)] *)
Definition rename_temp (d : disk) : disk :=
  mk_disk (temp_file d) (backup_file d) None.

(** [os.replace(backup_file, progress_file)] of the [except] branch. *)
Definition restore (d : disk) : disk :=
  mk_disk (backup_file d) None (temp_file d).

(** Which of the file operations raise in a given call. *)
Record faults : Type := mk_faults {
  rotate_fails : bool;
  write_fails : bool;
  rename_fails : bool;
  restore_fails : bool
}.

Definition no_faults : faults := mk_faults false false false false.

Definition exists_file (f : option contents) : bool :=
  match f with
  | Some _ => true
  | None => false
  end.

(** The [except] branch: restore the backup when there is one. *)
Definition recovery (flt : faults) (d : disk) : list disk :=
  if exists_file (backup_file d) && negb (restore_fails flt)
  then [restore d]
  else [].

(** [save_state] as the list of disk states it goes through, one per
    file operation, in order.  A process killed during the call leaves
    the disk in the initial state or in one of these. *)
Definition save_trace (flt : faults) (cm : CursorManager.t) (now : Q)
    (d0 : disk) : list disk :=
  let d1 :=
    if exists_file (progress_file d0) && negb (rotate_fails flt)
    then rotate d0 else d0 in
  let d2 := truncate_temp d1 in
  if write_fails flt then [d1; d2] ++ recovery flt d2
  else
    let d3 := write_temp (snapshot cm now) d2 in
    if rename_fails flt then [d1; d2; d3] ++ recovery flt d3
    else [d1; d2; d3; rename_temp d3].

(** The disk when [save_state] returns. *)
Definition save_state (flt : faults) (cm : CursorManager.t) (now : Q)
    (d0 : disk) : disk :=
  List.last (save_trace flt cm now d0) d0.

(** The primary file is missing, or [load_state] reads it through. *)
Definition progress_readable (d : disk) : Prop :=
  match progress_file d with
  | Some c => (try_read c CursorManager.init).1 = true
  | None => True
  end.

End Checkpoint.

(** ** The fetch layer: [make_request] and [get_app_reviews] *)

Module Fetch.

(** What one [requests.get] of [make_request] leads to: status 429, a
    response that passes [raise_for_status], or a
    [requests.RequestException] (connection error, timeout, or the
    [HTTPError] raised by [raise_for_status]). *)
Inductive http_result (Response : Type) : Type :=
| RateLimited
| Delivered (r : Response)
| RequestFailed.

Arguments RateLimited {Response}.
Arguments Delivered {Response} r.
Arguments RequestFailed {Response}.

(** The surroundings of one call of [make_request], indexed by the loop
    variable [attempt]: whether [stop_processing] or [goal_reached] is
    set when the iteration starts, what the request leads to, and what
    the draw of [random.uniform(0, 1)] adds to [2 ** attempt] in the
    float sum. *)
Record net (Response : Type) : Type := mk_net {
  halted : nat -> bool;
  http : nat -> http_result Response;
  jitter : nat -> Q
}.

Arguments mk_net {Response} halted http jitter.
Arguments halted {Response} n attempt.
Arguments http {Response} n attempt.
Arguments jitter {Response} n attempt.

(** What the call does that an observer can see.  [Raise] is the call
    ending with an [OverflowError]: the computation of a wait raises
    it, either in the [try] block, whose handler catches
    [requests.RequestException] only, or in that handler, and it
    leaves [make_request]. *)
Inductive event : Type :=
| Get (attempt : nat)
| Sleep (seconds : Q)
| Raise.

(** An [int] next to a [float] operand of [+] or [*] is converted to
    [float] first, and the conversion raises [OverflowError] from
    [2^1024 - 2^970] on, the least integer that rounds to [2^1024]. *)
Definition float_overflow_bound : Z :=
  Eval cbv in 2 ^ 1024 - 2 ^ 970.

Definition float_overflows (i : Z) : bool :=
  float_overflow_bound <=? i.

Arguments float_overflows : simpl never.

(** [min((2 ** attempt) + random.uniform(0, 1), 10)]; [None] when the
    sum raises [OverflowError], as it does from attempt 1024 on. *)
Definition rate_limit_wait (attempt : nat) (j : Q) : option Q :=
  if float_overflows (2 ^ Z.of_nat attempt) then None
  else Some (Qmin (inject_Z (2 ^ Z.of_nat attempt) + j) 10).

(** [min(0.5 * (attempt + 1), 3)]; [None] when the product raises
    [OverflowError]. *)
Definition error_wait (attempt : nat) : option Q :=
  if float_overflows (Z.of_nat attempt + 1) then None
  else Some (Qmin ((1 # 2) * inject_Z (Z.of_nat attempt + 1)) 3).

(** The [for attempt in range(retries)] loop; [fuel] counts the
    iterations that are left.  The first component is the response
    that the call returns, if it returns one; the trace ends with
    [Raise] when the call raises instead of returning. *)
Fixpoint attempts {Response : Type} (n : net Response) (retries : Z)
    (fuel attempt : nat) : option Response * list event :=
  match fuel with
  | O => (None, [])
  | S fuel' =>
      if halted n attempt then (None, [])
      else
        match http n attempt with
        | RateLimited =>
            match rate_limit_wait attempt (jitter n attempt) with
            | Some wait_time =>
                let '(r, tr) := attempts n retries fuel' (S attempt) in
                (r, Get attempt :: Sleep wait_time :: tr)
            | None => (None, [Get attempt; Raise])
            end
        | Delivered r => (Some r, [Get attempt])
        | RequestFailed =>
            if Z.of_nat attempt =? retries - 1
            then (None, [Get attempt])
            else
              match error_wait attempt with
              | Some seconds =>
                  let '(r, tr) := attempts n retries fuel' (S attempt) in
                  (r, Get attempt :: Sleep seconds :: tr)
              | None => (None, [Get attempt; Raise])
              end
        end
  end.

(** [make_request]: the response returned, if one is, and the trace of
    the call; a trace that ends with [Raise] is that of a call that
    raised instead of returning. *)
Definition make_request {Response : Type} (n : net Response)
    (retries : Z) : option Response * list event :=
  attempts n retries (Z.to_nat retries) 0.

Definition is_get (e : event) : bool :=
  match e with
  | Get _ => true
  | Sleep _ => false
  | Raise => false
  end.




(** The body of a review page after [response.json()]: either the
    decoder raised [JSONDecodeError], or the object's three keys. *)
Inductive body (Review : Type) : Type :=
| InvalidJson
| Payload (success : bool) (reviews : option (list Review))
          (cursor : option string).

Arguments InvalidJson {Review}.
Arguments Payload {Review} success reviews cursor.

(** The surroundings of one call of [get_app_reviews]: the flags at
    entry and at the top of each page iteration, and how the network
    answers the request of a page, given the cursor and the page size
    sent with it. *)
Record review_env (Review : Type) : Type := mk_review_env {
  entry_halted : bool;
  page_halted : nat -> bool;
  server : nat -> option string -> Z -> net (body Review)
}.

Arguments mk_review_env {Review} entry_halted page_halted server.
Arguments entry_halted {Review} r.
Arguments page_halted {Review} r page.
Arguments server {Review} r page cursor num_per_page.

(** One logged page request: the cursor and [num_per_page] sent, and
    what [make_request] returned. *)
Record page_request (Review : Type) : Type := mk_page_request {
  sent_cursor : option string;
  sent_num : Z;
  answer : option (body Review)
}.

Arguments mk_page_request {Review} sent_cursor sent_num answer.
Arguments sent_cursor {Review} p.
Arguments sent_num {Review} p.
Arguments answer {Review} p.

(** [data.get('reviews')] is truthy: a non-empty list. *)
Definition truthy_reviews {Review : Type} (o : option (list Review))
  : bool :=
  match o with
  | Some (_ :: _) => true
  | _ => false
  end.

Definition is_nil {A : Type} (l : list A) : bool :=
  match l with
  | [] => true
  | _ => false
  end.

(** The [for page in range(max_pages)] loop. *)
Fixpoint review_pages {Review : Type} (e : review_env Review)
    (num_reviews : Z) (fuel page : nat) (reviews : list Review)
    (cursor : option string)
  : list Review * list (page_request Review) :=
  match fuel with
  | O => (reviews, [])
  | S fuel' =>
      if page_halted e page
         || (num_reviews <=? Z.of_nat (length reviews))
      then (reviews, [])
      else
        let num_to_fetch :=
          Z.min 100 (num_reviews - Z.of_nat (length reviews)) in
        let response :=
          (make_request (server e page cursor num_to_fetch) 1).1 in
        let entry := mk_page_request cursor num_to_fetch response in
        match response with
        | Some (Payload success found next) =>
            if success && truthy_reviews found
            then
              let new_reviews := default [] found in
              let reviews' := reviews ++ new_reviews in
              if negb (truthy_opt_str next) || is_nil new_reviews
              then (reviews', [entry])
              else
                let '(res, log) :=
                  review_pages e num_reviews fuel' (S page) reviews' next in
                (res, entry :: log)
            else (reviews, [entry])
        | Some InvalidJson => (reviews, [entry])
        | None => (reviews, [entry])
        end
  end.

(** Python's [l[:n]]: a negative [n] counts from the end. *)
Definition slice_to {A : Type} (n : Z) (l : list A) : list A :=
  if n <? 0
  then take (Z.to_nat (Z.of_nat (length l) + n)) l
  else take (Z.to_nat n) l.

(** [min(10, (num_reviews + 99) // 100)] *)
Definition max_pages (num_reviews : Z) : Z :=
  Z.min 10 ((num_reviews + 99) / 100).

(** [get_app_reviews]: the list returned and the page requests made.
    The proxy drawn for each page only selects the route of the request
    and is part of what [server] stands for. *)
Definition get_app_reviews {Review : Type} (e : review_env Review)
    (num_reviews : Z) : list Review * list (page_request Review) :=
  if entry_halted e then ([], [])
  else
    let '(reviews, log) :=
      review_pages e num_reviews (Z.to_nat (max_pages num_reviews)) 0
                   [] (Some "*"%string) in
    (slice_to num_reviews reviews, log).

(** The records a logged page contributed to the accumulated list. *)
Definition records_of {Review : Type} (p : page_request Review)
  : list Review :=
  match answer p with
  | Some (Payload true (Some l) _) => l
  | _ => []
  end.

(** The page came back without a usable next cursor. *)
Definition no_cursor {Review : Type} (p : page_request Review) : bool :=
  match answer p with
  | Some (Payload _ _ next) => negb (truthy_opt_str next)
  | _ => true
  end.

(** The page came back without records. *)
Definition no_records {Review : Type} (p : page_request Review) : bool :=
  match answer p with
  | Some (Payload _ found _) => negb (truthy_reviews found)
  | _ => true
  end.

End Fetch.

(** ** The worker routine: [_is_valid_game] and [processar_um_jogo] *)

Module Worker.

(** One element of the [categories] list: a dictionary with its ['id']
    entry, or any other value. *)
Inductive category : Type :=
| CatDict (id : option Z)
| CatOther.

(** [details.get('categories', [])]: the default list, a list, or a
    value the generator cannot iterate over (for instance [null]). *)
Inductive categories_field : Type :=
| CategoriesMissing
| CategoriesList (l : list category)
| CategoriesNotIterable.

(** The keys of a detail payload that the validation reads. *)
Record details : Type := mk_details {
  dtype : option string;
  dname : option string;
  categories : categories_field
}.

(** [cat.get('id') == 21] for the dictionaries of the list. *)
Definition is_dlc (c : category) : bool :=
  match c with
  | CatDict (Some i) => i =? 21
  | _ => false
  end.

(** [_is_valid_game]; [None] when the call raises. *)
Definition _is_valid_game (d : details) : option bool :=
  match dtype d with
  | Some "game"%string =>
      if negb (truthy_opt_str (dname d)) then Some false
      else
        match categories d with
        | CategoriesMissing => Some true
        | CategoriesList l => Some (negb (existsb is_dlc l))
        | CategoriesNotIterable => None
        end
  | _ => Some false
  end.

(** What [get_app_details] does in a call: raise (for instance when the
    decoded body is not an object), return a falsy value ([None] or an
    empty payload), or return a payload. *)
Inductive details_result : Type :=
| FetchRaises
| FetchNothing
| FetchPayload (d : details).

(** The shared objects the routine works on: the cursor manager, the
    games counter, the two module-level events, and the ids of the
    records appended to the details file. *)
Record world : Type := mk_world {
  cursor_manager : CursorManager.t;
  games_counter : ThreadSafeCounter.t;
  stop_processing : bool;
  goal_reached : bool;
  details_file : list Z
}.

(** The surroundings of one call.  [signals k] tells which of the two
    events (stop, goal) other threads or the signal handler have set by
    the time the routine polls them for the [k]-th time; the other
    fields are the outcomes of the calls that leave the process. *)
Record env : Type := mk_env {
  signals : nat -> bool * bool;
  fetched : details_result;
  save_details_ok : bool;
  reviews_raise : bool
}.

(** The events as seen at poll point [k]. *)
Definition observe (e : env) (k : nat) (w : world) : world :=
  mk_world (cursor_manager w) (games_counter w)
           (stop_processing w || (signals e k).1)
           (goal_reached w || (signals e k).2)
           (details_file w).

Definition with_cm (w : world) (cm : CursorManager.t) : world :=
  mk_world cm (games_counter w) (stop_processing w) (goal_reached w)
           (details_file w).

Definition with_counter (w : world) (c : ThreadSafeCounter.t) : world :=
  mk_world (cursor_manager w) c (stop_processing w) (goal_reached w)
           (details_file w).

(** [goal_reached.set()] *)
Definition set_goal (w : world) : world :=
  mk_world (cursor_manager w) (games_counter w) (stop_processing w) true
           (details_file w).

Definition append_details (w : world) (appid : Z) : world :=
  mk_world (cursor_manager w) (games_counter w) (stop_processing w)
           (goal_reached w) (details_file w ++ [appid]).

Definition mark (w : world) (appid : Z) (success : bool) : world :=
  with_cm w (CursorManager.mark_processed (cursor_manager w) appid success).

Definition release (w : world) (appid : Z) : world :=
  with_cm w (CursorManager.release_reservation (cursor_manager w) appid).

Definition decrement (w : world) : world :=
  with_counter w (ThreadSafeCounter.decrement (games_counter w)).2.

Definition limit_reached (w : world) : bool :=
  ThreadSafeCounter.truthy
    (ThreadSafeCounter.reached_limit (games_counter w)).

(** How the [try] block ends: with a [return], or with an exception
    that the [except Exception] clause receives. *)
Inductive outcome : Type :=
| Returned (result : bool) (w : world)
| Raised (w : world).

(** The [try] block of [processar_um_jogo]. *)
Definition try_block (e : env) (max_reviews : Z) (appid : Z) (w : world)
  : outcome :=
  match fetched e with
  | FetchRaises => Raised w
  | FetchNothing => Returned false (mark w appid false)
  | FetchPayload d =>
      let w := observe e 2 w in
      if goal_reached w then Returned false (mark w appid false)
      else
        match _is_valid_game d with
        | None => Raised w
        | Some false => Returned false (mark w appid false)
        | Some true =>
            let '((success, _), c) :=
              ThreadSafeCounter.increment (games_counter w) in
            let w := with_counter w c in
            let w := if success then observe e 3 w else w in
            if negb success || goal_reached w
            then
              let w := mark w appid false in
              let w := observe e 4 w in
              Returned false (set_goal w)
            else if negb (save_details_ok e)
            then Returned false (mark (decrement w) appid false)
            else
              let w := append_details w appid in
              let w := if 0 <? max_reviews then observe e 5 w else w in
              if (0 <? max_reviews) && negb (goal_reached w)
                 && reviews_raise e
              then Raised w
              else
                let w := mark w appid true in
                if limit_reached w
                then Returned true (set_goal (observe e 6 w))
                else Returned true w
        end
  end.

(** The [except Exception] clause: release, then decrement. *)
Definition handler (appid : Z) (w : world) : world :=
  decrement (release w appid).

(** The routine from the early limit check on, once the reservation
    has been granted and recorded in [w]. *)
Definition after_reserve (e : env) (max_reviews : Z) (appid : Z)
    (w : world) : bool * world :=
  if limit_reached w
  then (false, set_goal (observe e 1 (release w appid)))
  else
    match try_block e max_reviews appid w with
    | Returned result w' => (result, w')
    | Raised w' => (false, handler appid w')
    end.

(** [processar_um_jogo]: the value returned and the shared objects
    after the call. *)
Definition processar_um_jogo (e : env) (max_reviews : Z)
    (app : CursorManager.game) (w : world) : bool * world :=
  let w := observe e 0 w in
  if stop_processing w || goal_reached w then (false, w)
  else
    match CursorManager.appid app with
    | None => (false, w)
    | Some appid =>
        if negb (truthy_int appid) then (false, w)
        else
          let '(ok, cm) :=
            CursorManager.reserve_appid (cursor_manager w) appid in
          if negb ok then (false, w)
          else after_reserve e max_reviews appid (with_cm w cm)
    end.

End Worker.

(** ** ProxyManager *)

Module ProxyManager.

(** [proxies], the rotation queue (head first; [None] is the local
    route) and [failed_proxies]. *)
Record t : Type := mk {
  proxies : list string;
  proxy_queue : list (option string);
  failed_proxies : gset string
}.

Definition with_queue (pm : t) (q : list (option string)) : t :=
  mk (proxies pm) q (failed_proxies pm).

Definition newline : ascii := "010"%char.

Definition comma : ascii := ","%char.

(** [content.replace("\n", ",")] *)
Fixpoint replace_newlines (s : string) : string :=
  match s with
  | EmptyString => EmptyString
  | String c rest =>
      String (if Ascii.eqb c newline then comma else c)
             (replace_newlines rest)
  end.

(** [s.split(",")]: the pieces between commas, at least one. *)
Fixpoint split_commas (s : string) : list string :=
  match s with
  | EmptyString => [EmptyString]
  | String c rest =>
      if Ascii.eqb c comma then EmptyString :: split_commas rest
      else
        match split_commas rest with
        | piece :: pieces => String c piece :: pieces
        | [] => [String c EmptyString]
        end
  end.

(** [p.startswith("http")] *)
Definition starts_with_http (p : string) : bool :=
  String.prefix "http" p.

(** The loop over [raw_proxies].  [strip] stands for [str.strip]. *)
Fixpoint collect (strip : string -> string) (raw_proxies : list string)
  : list string :=
  match raw_proxies with
  | [] => []
  | p :: rest =>
      let p := strip p in
      if negb (truthy_str p) then collect strip rest
      else
        (if starts_with_http p then p else String.append "https://" p)
          :: collect strip rest
  end.

(** [_load_proxies]: [file] is what [f.read()] returns, [None] when no
    file name was given, the file does not exist, or reading raises. *)
Definition _load_proxies (strip : string -> string) (file : option string)
  : list string :=
  match file with
  | None => []
  | Some content => collect strip (split_commas (replace_newlines content))
  end.

(** [_init_queue]: put the local route, then every proxy. *)
Definition _init_queue (pm : t) : t :=
  with_queue pm (proxy_queue pm ++ None :: map Some (proxies pm)).

(** [__init__] *)
Definition new (strip : string -> string) (file : option string) : t :=
  _init_queue (mk (_load_proxies strip file) [] ∅).

(** [get_nowait] followed by [put]: [None] when the queue is empty. *)
Definition draw (pm : t) : option (option string * t) :=
  match proxy_queue pm with
  | p :: rest => Some (p, with_queue pm (rest ++ [p]))
  | [] => None
  end.

(** [get_proxy]: on an empty queue, refill it and draw again.  The
    refilled queue always holds the local route, so the last branch is
    never taken. *)
Definition get_proxy (pm : t) : option string * t :=
  match draw pm with
  | Some r => r
  | None =>
      match draw (_init_queue pm) with
      | Some r => r
      | None => (None, _init_queue pm)
      end
  end.

(** [mark_failed] *)
Definition mark_failed (pm : t) (proxy : option string) : t :=
  match proxy with
  | Some p =>
      if truthy_str p
      then mk (proxies pm) (proxy_queue pm) ({[p]} ∪ failed_proxies pm)
      else pm
  | None => pm
  end.

(** [get_proxy_config]: the ["http"] and ["https"] entries, or [None]. *)
Definition get_proxy_config (pm : t) (proxy : option string)
  : option (string * string) :=
  match proxy with
  | Some p =>
      if truthy_str p && negb (bool_decide (p ∈ failed_proxies pm))
      then Some (p, p)
      else None
  | None => None
  end.

(** [n] successive calls of [get_proxy]: the proxies returned, in
    order, and the manager afterwards. *)
Fixpoint draws (n : nat) (pm : t) : list (option string) * t :=
  match n with
  | O => ([], pm)
  | S n' =>
      let '(p, pm1) := get_proxy pm in
      let '(ps, pm2) := draws n' pm1 in
      (p :: ps, pm2)
  end.

End ProxyManager.

(** ** get_app_details *)

Module Details.

(** The body of a detail response: [response.json()] raises
    [JSONDecodeError]; the value is not an object (or the entry of the
    appid is a truthy non-object), so a [.get] raises; the entry is
    falsy or its ['success'] is falsy; or the entry's ['data'], which is
    [None] when the key is missing. *)
Inductive body : Type :=
| InvalidJson
| NotAnObject
| Unavailable
| Data (d : option Worker.details).

(** The surroundings of one call: the flags at entry and at the top of
    each attempt, and how the network answers the request of an
    attempt over the route chosen for it. *)
Record env : Type := mk_env {
  entry_halted : bool;
  attempt_halted : nat -> bool;
  network : nat -> option (string * string) -> Fetch.net body
}.

(** One logged [make_request] call: the proxy drawn, the route used,
    and the trace of the call. *)
Record request : Type := mk_request {
  drawn : option string;
  route : option (string * string);
  trace : list Fetch.event
}.

(** [if proxy: proxy_manager.mark_failed(proxy)] *)
Definition blame (pm : ProxyManager.t) (proxy : option string)
  : ProxyManager.t :=
  if truthy_opt_str proxy then ProxyManager.mark_failed pm proxy else pm.

(** The [for attempt in range(4)] loop. *)
Fixpoint attempts_loop (e : env) (fuel attempt : nat) (pm : ProxyManager.t)
  : Worker.details_result * ProxyManager.t * list request :=
  match fuel with
  | O => (Worker.FetchNothing, pm, [])
  | S fuel' =>
      if attempt_halted e attempt then (Worker.FetchNothing, pm, [])
      else
        let '(proxy, pm1) := ProxyManager.get_proxy pm in
        let proxy_config := ProxyManager.get_proxy_config pm1 proxy in
        let '(response, tr) :=
          Fetch.make_request (network e attempt proxy_config) 1 in
        let entry := mk_request proxy proxy_config tr in
        match response with
        | Some InvalidJson =>
            let '(r, pm2, log) :=
              attempts_loop e fuel' (S attempt) (blame pm1 proxy) in
            (r, pm2, entry :: log)
        | Some NotAnObject => (Worker.FetchRaises, pm1, [entry])
        | Some Unavailable => (Worker.FetchNothing, pm1, [entry])
        | Some (Data None) => (Worker.FetchNothing, pm1, [entry])
        | Some (Data (Some d)) => (Worker.FetchPayload d, pm1, [entry])
        | None =>
            let '(r, pm2, log) :=
              attempts_loop e fuel' (S attempt) (blame pm1 proxy) in
            (r, pm2, entry :: log)
        end
  end.

(** The proxies among [drawn] that [blame] adds to the failed set. *)
Definition blamed (drawn : list (option string)) : gset string :=
  list_to_set
    (omap (fun proxy =>
             match proxy with
             | Some p => if truthy_str p then Some p else None
             | None => None
             end) drawn).

(** [get_app_details]: what the worker routine receives, the proxy
    manager afterwards, and the requests made. *)
Definition get_app_details (e : env) (pm : ProxyManager.t)
  : Worker.details_result * ProxyManager.t * list request :=
  if entry_halted e then (Worker.FetchNothing, pm, [])
  else attempts_loop e 4 0 pm.

End Details.

(** ** get_existing_appids *)

Module Jsonl.

(** [record.get('appid')] of a parsed line. *)
Inductive appid_value : Type :=
| AppidMissing
| AppidInt (z : Z)
| AppidBool (b : bool)
| AppidOther.

(** A line of the details file as the loop experiences it: blank after
    [strip], rejected by [json.loads] with [JSONDecodeError], a JSON
    value without [.get] (the call raises out of the loop), or an
    object. *)
Inductive line : Type :=
| Blank
| Malformed
| NotObject
| Rec (v : appid_value).

(** [appid and isinstance(appid, int)]: the id added to the set.
    [True] is an [int] and hashes and compares as 1. *)
Definition accepted (v : appid_value) : option Z :=
  match v with
  | AppidInt z => if truthy_int z then Some z else None
  | AppidBool true => Some 1
  | _ => None
  end.

(** The [for line in f] loop; an exception other than
    [JSONDecodeError] ends it with the set built so far. *)
Fixpoint read_lines (lines : list line) (appids : gset Z) : gset Z :=
  match lines with
  | [] => appids
  | Blank :: rest => read_lines rest appids
  | Malformed :: rest => read_lines rest appids
  | NotObject :: _ => appids
  | Rec v :: rest =>
      match accepted v with
      | Some a => read_lines rest ({[a]} ∪ appids)
      | None => read_lines rest appids
      end
  end.

(** Some object line carries [a] as an accepted id, and no line before
    it holds a value without [.get]. *)
Definition reported (lines : list line) (a : Z) : Prop :=
  exists (i : nat) (v : appid_value),
    lines !! i = Some (Rec v) ∧ accepted v = Some a
    ∧ forall j : nat, (j < i)%nat -> lines !! j ≠ Some NotObject.

(** [get_existing_appids]; [None] is a file that does not exist. *)
Definition get_existing_appids (file : option (list line)) : gset Z :=
  match file with
  | None => ∅
  | Some lines => read_lines lines ∅
  end.

End Jsonl.

(** ** get_all_game_list *)

Module Catalogue.

(** The body of the catalogue response: [response.json()] raises
    [JSONDecodeError] (caught); the value has no [.get], so the lookup
    raises out of the function; or the list under
    ['applist']['apps'], empty when a key is missing. *)
Inductive body : Type :=
| InvalidJson
| NotAnObject
| Apps (apps : list CursorManager.game).

(** [5 * (attempt + 1)] seconds, slept when [attempt < 2]. *)
Definition pause (attempt : nat) : list Fetch.event :=
  if (attempt <? 2)%nat
  then [Fetch.Sleep (inject_Z (5 * (Z.of_nat attempt + 1)))]
  else [].

(** The [for attempt in range(3)] loop: the list returned ([None] when
    the call raises) and everything the call did, in order. *)
Fixpoint list_loop (network : nat -> Fetch.net body) (fuel attempt : nat)
  : option (list CursorManager.game) * list Fetch.event :=
  match fuel with
  | O => (Some [], [])
  | S fuel' =>
      let '(response, tr) := Fetch.make_request (network attempt) 2 in
      match response with
      | Some (Apps apps) => (Some apps, tr)
      | Some NotAnObject => (None, tr)
      | Some InvalidJson =>
          let '(r, rest) := list_loop network fuel' (S attempt) in
          (r, tr ++ pause attempt ++ rest)
      | None =>
          let '(r, rest) := list_loop network fuel' (S attempt) in
          (r, tr ++ pause attempt ++ rest)
      end
  end.

Definition get_all_game_list (network : nat -> Fetch.net body)
  : option (list CursorManager.game) * list Fetch.event :=
  list_loop network 3 0.

End Catalogue.

(** ** main: argument validation, start-up, the sequential loop,
       batch slicing *)

Module Main.

(** The command-line arguments that [main] adjusts or branches on. *)
Record args : Type := mk_args {
  max_games : Z;
  max_reviews : Z;
  workers : Z;
  checkpoint_interval : Z;
  batch_size : Z;
  reset_cursor : bool
}.

(** "Validação e ajuste de argumentos" *)
Definition validate (a : args) : args :=
  mk_args (Z.max 1 (max_games a))
          (Z.max 0 (max_reviews a))
          (Z.max 1 (Z.min 20 (workers a)))
          (Z.max 5 (checkpoint_interval a))
          (Z.max 50 (Z.min 150 (batch_size a)))
          (reset_cursor a).

(** The [os.remove] loop of [--reset_cursor]: the progress and backup
    files go (the cursor file itself is never written). *)
Definition reset (d : Checkpoint.disk) : Checkpoint.disk :=
  Checkpoint.mk_disk None None (Checkpoint.temp_file d).

(** How the part of [main] before the processing loop ends. *)
Inductive startup_result : Type :=
| NoCatalogue
| NothingRemaining
| GoalAlreadyMet
| Ready (cm : CursorManager.t) (remaining_games : list CursorManager.game)
        (games_counter : ThreadSafeCounter.t).

(** [main] from the validated arguments up to the construction of the
    counter; [all_games] is what [get_all_game_list] returned and
    [existing_details] what [get_existing_appids] returned.  The list
    in [Ready] is the one handed to [random.shuffle]. *)
Definition startup (a : args) (d : Checkpoint.disk)
    (all_games : list CursorManager.game) (existing_details : gset Z)
  : startup_result :=
  let d := if reset_cursor a then reset d else d in
  let loaded := Checkpoint.load_state d in
  if Fetch.is_nil all_games then NoCatalogue
  else
    let cm :=
      CursorManager.mk
        (existing_details ∪ CursorManager.processed_appids loaded)
        (CursorManager.reserved_appids loaded)
        (CursorManager.failed_appids loaded)
        (Z.of_nat (size existing_details))
        (CursorManager.last_batch_index loaded) in
    let remaining_games := CursorManager.get_remaining_games cm all_games in
    if Fetch.is_nil remaining_games then NothingRemaining
    else
      let games_already_found := CursorManager.total_games_found cm in
      let games_needed := Z.max 0 (max_games a - games_already_found) in
      if games_needed <=? 0 then GoalAlreadyMet
      else
        Ready cm remaining_games
          (ThreadSafeCounter.mk games_already_found (Some (max_games a))).

(** The variables of the sequential loop: the shared objects, the two
    counters, and the manager states dumped by [save_state] so far. *)
Record progress : Type := mk_progress {
  shared : Worker.world;
  checkpoint_counter : Z;
  processed_count : Z;
  saved : list CursorManager.t
}.

(** The sequential [for i, app in enumerate(remaining_games)] loop.
    Each item comes with the surroundings of its iteration; poll 7 is
    the flag test at the top of the iteration. *)
Fixpoint sequential (a : args)
    (items : list (CursorManager.game * Worker.env)) (st : progress)
  : progress :=
  match items with
  | [] => st
  | (app, e) :: rest =>
      let w := Worker.observe e 7 (shared st) in
      if Worker.stop_processing w || Worker.goal_reached w
      then mk_progress w (checkpoint_counter st) (processed_count st)
                       (saved st)
      else if Worker.limit_reached w
      then mk_progress w (checkpoint_counter st) (processed_count st)
                       (saved st)
      else
        let w' := (Worker.processar_um_jogo e (max_reviews a) app w).2 in
        let cc := checkpoint_counter st + 1 in
        if checkpoint_interval a <=? cc
        then
          sequential a rest
            (mk_progress w' 0 (processed_count st + 1)
               (saved st ++ [Worker.cursor_manager w']))
        else
          sequential a rest
            (mk_progress w' cc (processed_count st + 1) (saved st))
  end.

(** The sequential mode of [main] from the loop to the end: the loop,
    the forced save after it, and the [finally] clause, which sets both
    events and saves once more. *)
Definition run_sequential (a : args)
    (items : list (CursorManager.game * Worker.env)) (w : Worker.world)
  : progress :=
  let st := sequential a items (mk_progress w 0 0 []) in
  let cm := Worker.cursor_manager (shared st) in
  mk_progress
    (Worker.mk_world cm (Worker.games_counter (shared st)) true true
       (Worker.details_file (shared st)))
    (checkpoint_counter st) (processed_count st)
    (saved st ++ [cm; cm]).

(** [remaining_games[batch_start:batch_end]] for indices within the
    list. *)
Definition slice {A : Type} (batch_start batch_end : Z) (l : list A)
  : list A :=
  take (Z.to_nat (batch_end - batch_start)) (drop (Z.to_nat batch_start) l).

(** [range(0, n, batch_size)] for a positive step. *)
Definition batch_starts (n batch_size : Z) : list Z :=
  map (fun k => Z.of_nat k * batch_size)
      (seq 0 (Z.to_nat ((n + batch_size - 1) / batch_size))).

(** The batches the parallel mode cuts, in order, when no flag stops
    the outer loop. *)
Definition batches {A : Type} (batch_size : Z) (remaining_games : list A)
  : list (list A) :=
  let n := Z.of_nat (length remaining_games) in
  map (fun batch_start =>
         slice batch_start (Z.min (batch_start + batch_size) n)
               remaining_games)
      (batch_starts n batch_size).

End Main.

(** ** The worker protocol over the cursor manager *)

Module Protocol.

(** Every terminal marking in [ops] targets an id that is reserved at
    that moment, as in [processar_um_jogo], which marks only the id it
    has just reserved. *)
Fixpoint guarded (cm : CursorManager.t) (ops : list CursorManager.op)
  : bool :=
  match ops with
  | [] => true
  | o :: rest =>
      match o with
      | CursorManager.MarkProcessed a _ =>
          bool_decide (a ∈ CursorManager.reserved_appids cm)
      | _ => true
      end
      && guarded (CursorManager.step cm o).2 rest
  end.

End Protocol.

(** ** More concrete runs *)

Module Cases.

(** A pool of two proxies behind the local route. *)
Definition pool : ProxyManager.t :=
  ProxyManager._init_queue
    (ProxyManager.mk ["http://a:1"; "http://b:2"]%string [] ∅).

(** Nothing is ever delivered and no flag is set. *)
Definition dead_network {R : Type} : Fetch.net R :=
  Fetch.mk_net (fun _ => false) (fun _ => Fetch.RequestFailed)
    (fun _ => 0%Q).

Definition dead_details : Details.env :=
  Details.mk_env false (fun _ => false) (fun _ _ => dead_network).

(** No signal; a valid game is fetched, saved, and its reviews too. *)
Definition smooth : Worker.env :=
  Worker.mk_env (fun _ => (false, false))
    (Worker.FetchPayload
       (Worker.mk_details (Some "game"%string) (Some "Portal"%string)
          Worker.CategoriesMissing))
    true false.

Definition game (a : Z) : CursorManager.game :=
  CursorManager.mk_game (Some a) "".

(** The goal flag is raised by another thread between the increment
    and the test that follows it. *)
Definition late_goal : Worker.env :=
  Worker.mk_env (fun k => (false, bool_decide (k = 3%nat)))
    (Worker.FetchPayload
       (Worker.mk_details (Some "game"%string) (Some "Portal"%string)
          Worker.CategoriesMissing))
    true false.


(** The state of an earlier run, with one id processed. *)
Definition earlier_run : CursorManager.t :=
  CursorManager.mk {[1]} ∅ ∅ 1 0.

(** The state that the interrupted save is writing. *)
Definition current_run : CursorManager.t :=
  CursorManager.mk {[1; 2]} ∅ ∅ 2 0.

(** A primary file that does not parse, next to a backup that holds
    the state of the earlier run. *)
Definition corrupt_primary : Checkpoint.disk :=
  Checkpoint.mk_disk (Some Checkpoint.Unreadable)
    (Some (Checkpoint.snapshot earlier_run 10)) None.

End Cases.

(** ** Concrete runs used as test inputs below *)

Module Scenario.

(** A review server whose first page carries two records and a cursor,
    and whose later pages carry a cursor and no records. *)
Definition empty_second_page : Fetch.review_env nat :=
  Fetch.mk_review_env false (fun _ => false)
    (fun page _ _ =>
       Fetch.mk_net (fun _ => false)
         (fun _ =>
            match page with
            | O => Fetch.Delivered
                     (Fetch.Payload true (Some [11; 12]%nat)
                        (Some "c1"%string))
            | S _ => Fetch.Delivered
                       (Fetch.Payload true (Some []) (Some "c2"%string))
            end)
         (fun _ => 0%Q)).

(** Nothing processed yet, two games counted out of three, no flag. *)
Definition two_of_three : Worker.world :=
  Worker.mk_world CursorManager.init (ThreadSafeCounter.mk 2 (Some 3))
    false false [].

(** No signal arrives and [get_app_details] raises. *)
Definition fetch_raises : Worker.env :=
  Worker.mk_env (fun _ => (false, false)) Worker.FetchRaises true false.

(** No signal arrives, the payload is a game whose [categories] entry
    is [null], so the validation raises. *)
Definition validation_raises : Worker.env :=
  Worker.mk_env (fun _ => (false, false))
    (Worker.FetchPayload
       (Worker.mk_details (Some "game"%string) (Some "Portal"%string)
          Worker.CategoriesNotIterable))
    true false.

(** No signal arrives, a valid game is fetched and saved, and the
    review phase raises after the counter was incremented. *)
Definition reviews_fail : Worker.env :=
  Worker.mk_env (fun _ => (false, false))
    (Worker.FetchPayload
       (Worker.mk_details (Some "game"%string) (Some "Portal"%string)
          Worker.CategoriesMissing))
    true true.

Definition game7 : CursorManager.game :=
  CursorManager.mk_game (Some 7) "Portal".

End Scenario.

(** * Properties *)

(** ** CursorManager: reservation, terminal marking, remaining work *)

Section CursorManagerFacts.

Import CursorManager.

Lemma reserve_appid_refuses (cm : t) (id : Z) :
  id ∈ processed_appids cm ∪ reserved_appids cm ∪ failed_appids cm ->
  reserve_appid cm id = (false, cm).
Proof.
  intros Hin. unfold reserve_appid.
  destruct (decide (id ∈ processed_appids cm)) as [Hp|Hp].
  { by rewrite (bool_decide_eq_true_2 _ Hp). }
  destruct (decide (id ∈ reserved_appids cm)) as [Hr|Hr].
  { rewrite (bool_decide_eq_true_2 _ Hr). by rewrite orb_true_r. }
  assert (Hf : id ∈ failed_appids cm) by set_solver.
  rewrite (bool_decide_eq_true_2 _ Hf). by rewrite orb_true_r.
Qed.

Lemma reserve_appid_grants (cm : t) (id : Z) :
  id ∉ processed_appids cm ∪ reserved_appids cm ∪ failed_appids cm ->
  reserve_appid cm id
  = (true, with_reserved cm ({[id]} ∪ reserved_appids cm)).
Proof.
  intros Hout. unfold reserve_appid.
  assert (Hp : id ∉ processed_appids cm) by set_solver.
  assert (Hr : id ∉ reserved_appids cm) by set_solver.
  assert (Hf : id ∉ failed_appids cm) by set_solver.
  by rewrite !bool_decide_eq_false_2.
Qed.

(** An operation other than a release or a terminal marking of [id]
    leaves a reserved [id] reserved. *)
Lemma step_keeps_reserved (cm : t) (id : Z) (o : op) :
  id ∈ reserved_appids cm -> keeps id o = true ->
  id ∈ reserved_appids (step cm o).2.
Proof.
  intros Hin Hk. destruct o as [a|a s|a]; simpl in *.
  - unfold reserve_appid.
    destruct (_ || _ || _); simpl; [done | set_solver].
  - apply negb_true_iff, bool_decide_eq_false in Hk.
    unfold mark_processed. destruct s; simpl; set_solver.
  - apply negb_true_iff, bool_decide_eq_false in Hk. set_solver.
Qed.

Lemma step_reserved_not_granted (cm : t) (id : Z) (o : op) :
  id ∈ reserved_appids cm -> granted id (o, (step cm o).1) = false.
Proof.
  intros Hin. destruct o as [a|a s|a]; simpl; try done.
  destruct (decide (a = id)) as [->|Hne].
  - rewrite reserve_appid_refuses; [done | set_solver].
  - destruct (reserve_appid cm a) as [[] ?]; simpl; [|done].
    by apply bool_decide_eq_false.
Qed.

Lemma run_log_cons (cm : t) (o : op) (ops : list op) :
  run_log cm (o :: ops)
  = ((o, (step cm o).1) :: (run_log (step cm o).2 ops).1,
     (run_log (step cm o).2 ops).2).
Proof.
  simpl. destruct (step cm o) as [r cm1]. simpl.
  by destruct (run_log cm1 ops).
Qed.

Lemma no_grant_while_reserved (id : Z) (ops : list op) :
  forall cm : t,
    id ∈ reserved_appids cm -> forallb (keeps id) ops = true ->
    List.filter (granted id) (run_log cm ops).1 = [].
Proof.
  induction ops as [|o ops IH]; intros cm Hin Hk; [done|].
  simpl in Hk. apply andb_true_iff in Hk as [Hk1 Hk2].
  rewrite run_log_cons. cbn [fst List.filter].
  rewrite step_reserved_not_granted by done.
  apply IH; [by apply step_keeps_reserved | done].
Qed.

Lemma granted_reserves (cm : t) (id : Z) (o : op) :
  granted id (o, (step cm o).1) = true ->
  id ∈ reserved_appids (step cm o).2.
Proof.
  destruct o as [a|a s|a]; simpl; try done.
  unfold reserve_appid. destruct (_ || _ || _); simpl; [done|].
  intros ->%bool_decide_eq_true. set_solver.
Qed.

Lemma at_most_one_grant (id : Z) (ops : list op) :
  forall cm : t,
    forallb (keeps id) ops = true ->
    (length (List.filter (granted id) (run_log cm ops).1) <= 1)%nat.
Proof.
  induction ops as [|o ops IH]; intros cm Hk; [simpl; lia|].
  simpl in Hk. apply andb_true_iff in Hk as [Hk1 Hk2].
  rewrite run_log_cons. cbn [fst List.filter].
  destruct (granted id (o, (step cm o).1)) eqn:Hg.
  - rewrite no_grant_while_reserved; [simpl; lia | | done].
    by apply granted_reserves.
  - by apply IH.
Qed.

(** C1.  [reserve_appid] refuses, changing nothing, an id that is in
    [processed_appids], [reserved_appids] or [failed_appids]; any other
    id it adds to [reserved_appids] and grants.  Hence in every run of
    operations that neither releases nor terminally marks [id], at most
    one [reserve_appid] call for [id] is granted. *)
Theorem reserve_appid_exclusive (cm : t) (id : Z) :
  (id ∈ processed_appids cm ∪ reserved_appids cm ∪ failed_appids cm ->
   reserve_appid cm id = (false, cm))
  ∧ (id ∉ processed_appids cm ∪ reserved_appids cm ∪ failed_appids cm ->
     reserve_appid cm id
     = (true, mk (processed_appids cm) ({[id]} ∪ reserved_appids cm)
                 (failed_appids cm) (total_games_found cm)
                 (last_batch_index cm)))
  ∧ (forall ops : list op,
       forallb (keeps id) ops = true ->
       (length (List.filter (granted id) (run_log cm ops).1) <= 1)%nat).
Proof.
  split; [apply reserve_appid_refuses|].
  split; [apply reserve_appid_grants|].
  intros ops. apply at_most_one_grant.
Qed.

(** A run in which id 7 is requested three times and id 8 is processed
    in between: only the first request for 7 is granted. *)
Lemma reserve_appid_exclusive_witness :
  reserve_appid (mk {[7]} ∅ ∅ 0 0) 7 = (false, mk {[7]} ∅ ∅ 0 0)
  ∧ reserve_appid init 7 = (true, mk ∅ ({[7]} ∪ ∅) ∅ 0 0)
  ∧ (length (List.filter (granted 7)
       (run_log init [Reserve 7; Reserve 8; Reserve 7;
                      MarkProcessed 8 true; Reserve 7]).1) <= 1)%nat.
Proof.
  destruct (reserve_appid_exclusive (mk {[7]} ∅ ∅ 0 0) 7) as (H1 & _ & _).
  destruct (reserve_appid_exclusive init 7) as (_ & H2 & H3).
  split; [apply H1; set_solver|].
  split; [apply H2; set_solver|].
  apply H3. reflexivity.
Defined.

(** *** Terminal marking *)

Lemma mark_processed_leaves_reserved (cm : t) (id : Z) (success : bool) :
  reserved_appids (mark_processed cm id success)
  = reserved_appids cm ∖ {[id]}.
Proof. by destruct success. Qed.

Lemma mark_processed_success (cm : t) (id : Z) :
  processed_appids (mark_processed cm id true)
  = {[id]} ∪ processed_appids cm
  ∧ failed_appids (mark_processed cm id true)
    = failed_appids cm ∖ {[id]}.
Proof. done. Qed.

Lemma mark_processed_failure (cm : t) (id : Z) :
  processed_appids (mark_processed cm id false) = processed_appids cm
  ∧ failed_appids (mark_processed cm id false)
    = {[id]} ∪ failed_appids cm.
Proof. done. Qed.

(** Disjointness of the terminal sets survives every operation except a
    failure marking of an id that is already processed. *)
Lemma step_preserves_disjoint (cm : t) (o : op) :
  processed_appids cm ## failed_appids cm ->
  (forall a, o = MarkProcessed a false -> a ∉ processed_appids cm) ->
  processed_appids (step cm o).2 ## failed_appids (step cm o).2.
Proof.
  intros Hd Hg. destruct o as [a|a [|]|a]; simpl.
  - unfold reserve_appid. by destruct (_ || _ || _).
  - set_solver.
  - specialize (Hg a eq_refl). set_solver.
  - done.
Qed.

(** C3.  After a success marking followed by a failure marking of the
    same id, the id is in [processed_appids] and in [failed_appids] at
    once: the failure branch does not discard from the other terminal
    set, as the success branch does. *)
Theorem mark_processed_failure_keeps_processed :
  1 ∈ processed_appids (run init [MarkProcessed 1 true; MarkProcessed 1 false])
  ∧ 1 ∈ failed_appids (run init [MarkProcessed 1 true; MarkProcessed 1 false])
  ∧ 1 ∉ failed_appids (run init [MarkProcessed 1 false; MarkProcessed 1 true]).
Proof.
  unfold run. cbn. set_solver.
Qed.

(** *** Remaining work *)

Lemma eligible_offered (cm : t) (g : game) :
  eligible (processed_appids cm ∪ reserved_appids cm) g = true
  <-> offered cm g.
Proof.
  unfold eligible, offered. destruct (appid g) as [a|]; simpl.
  - rewrite andb_true_iff, negb_true_iff, bool_decide_eq_false.
    set_solver.
  - split; [done | by intros [? _]].
Qed.

Lemma remaining_loop_filter (cm : t) (all_games : list game) :
  remaining_loop (processed_appids cm ∪ reserved_appids cm) all_games
  = filter (offered cm) all_games.
Proof.
  induction all_games as [|g rest IH]; [done|].
  simpl. rewrite IH.
  destruct (eligible _ g) eqn:He.
  - apply eligible_offered in He. by rewrite filter_cons_True.
  - rewrite filter_cons_False; [done|].
    intros Ho%eligible_offered. congruence.
Qed.

(** C7, as the code has it.  [get_remaining_games] returns, in input
    order, exactly the entries that carry a truthy appid (present and
    non-zero) that is neither in [processed_appids] nor in
    [reserved_appids].  Membership in [failed_appids] plays no part, so
    failed ids are offered again, and no returned entry is processed. *)
Theorem get_remaining_games_offered (cm : t) (all_games : list game) :
  get_remaining_games cm all_games = filter (offered cm) all_games
  ∧ (forall g, g ∈ get_remaining_games cm all_games
               <-> g ∈ all_games ∧ offered cm g)
  ∧ (forall g, g ∈ all_games -> offered cm g ->
               py_in (appid g) (failed_appids cm) ->
               g ∈ get_remaining_games cm all_games)
  ∧ (forall g, g ∈ get_remaining_games cm all_games ->
               ¬ py_in (appid g) (processed_appids cm)).
Proof.
  assert (Heq : get_remaining_games cm all_games
                = filter (offered cm) all_games)
    by apply remaining_loop_filter.
  rewrite Heq. split; [done|].
  split; [intros g; rewrite list_elem_of_filter; tauto|].
  split.
  - intros g Hin Ho _. by apply list_elem_of_filter.
  - intros g [Ho _]%list_elem_of_filter. apply Ho.
Qed.

(** Of three entries, one processed, one reserved and one failed, the
    failed one is handed out. *)
Lemma get_remaining_games_offered_witness :
  mk_game (Some 5) "five"
  ∈ get_remaining_games (mk {[3]} {[4]} {[5]} 0 0)
      [mk_game (Some 3) "three"; mk_game (Some 4) "four";
       mk_game (Some 5) "five"].
Proof.
  destruct (get_remaining_games_offered (mk {[3]} {[4]} {[5]} 0 0)
              [mk_game (Some 3) "three"; mk_game (Some 4) "four";
               mk_game (Some 5) "five"]) as (_ & _ & H & _).
  apply H.
  - set_solver.
  - unfold offered; simpl. set_solver.
  - simpl. set_solver.
Defined.

(** C7 as stated fails: an entry whose appid is 0 is in neither
    [processed_appids] nor [reserved_appids], and is not returned. *)
Lemma get_remaining_games_skips_zero_appid :
  ¬ (forall g,
       g ∈ get_remaining_games init [mk_game (Some 0) "zero"]
       <-> g ∈ [mk_game (Some 0) "zero"]
           ∧ ¬ py_in (appid g) (processed_appids init)
           ∧ ¬ py_in (appid g) (reserved_appids init)).
Proof.
  intros H. specialize (H (mk_game (Some 0) "zero")).
  destruct H as [_ H].
  assert (Hin : mk_game (Some 0) "zero"
                ∈ get_remaining_games init [mk_game (Some 0) "zero"]).
  { apply H. simpl. set_solver. }
  cbn in Hin. by apply not_elem_of_nil in Hin.
Qed.

End CursorManagerFacts.

(** ** ThreadSafeCounter: bounds *)

Section CounterFacts.

Import ThreadSafeCounter.

Lemma step_max_value (c : t) (o : op) : max_value (step c o) = max_value c.
Proof.
  destruct o; simpl; [|done].
  unfold increment. by destruct (truthy (limit_expr c)).
Qed.

Lemma run_max_value (ops : list op) :
  forall c : t, max_value (run c ops) = max_value c.
Proof.
  induction ops as [|o ops IH]; intros c; [done|].
  unfold run in *. simpl. rewrite IH. apply step_max_value.
Qed.

(** With a maximum [M >= 1] the limit expression is the comparison. *)
Lemma limit_expr_bounded (c : t) (M : Z) :
  max_value c = Some M -> 1 <= M ->
  limit_expr c = PyBool (M <=? value c).
Proof.
  intros Hm HM. unfold limit_expr, truthy_int. rewrite Hm.
  destruct (Z.eqb_spec M 0); [lia | done].
Qed.

Lemma step_in_bounds (c : t) (M : Z) (o : op) :
  max_value c = Some M -> 1 <= M ->
  0 <= value c <= M -> 0 <= value (step c o) <= M.
Proof.
  intros Hm HM Hv. destruct o; simpl.
  - unfold increment. rewrite (limit_expr_bounded c M) by done. simpl.
    destruct (Z.leb_spec M (value c)); simpl; lia.
  - lia.
Qed.

Lemma run_in_bounds (M : Z) (ops : list op) :
  forall c : t,
    max_value c = Some M -> 1 <= M ->
    0 <= value c <= M -> 0 <= value (run c ops) <= M.
Proof.
  induction ops as [|o ops IH]; intros c Hm HM Hv; [done|].
  unfold run in *. simpl. apply IH; [|done|].
  - by rewrite step_max_value.
  - by apply step_in_bounds.
Qed.

(** C5, as the code has it.  For a counter built with a maximum
    [M >= 1] and an initial value between 0 and [M], after any sequence
    of [increment] and [decrement] calls the value is between 0 and [M];
    [increment] refuses, returning the unchanged value, exactly when the
    value has reached [M], and otherwise adds one; [decrement] subtracts
    one, floored at zero. *)
Theorem counter_stays_in_bounds (M initial : Z) (ops : list op) :
  1 <= M -> 0 <= initial <= M ->
  let c := run (mk initial (Some M)) ops in
  0 <= value c <= M
  ∧ ((increment c).1.1 = false <-> value c = M)
  ∧ (value c = M -> increment c = ((false, value c), c))
  ∧ (value c < M ->
     increment c = ((true, value c + 1), mk (value c + 1) (Some M)))
  ∧ decrement c
    = (Z.max 0 (value c - 1), mk (Z.max 0 (value c - 1)) (Some M)).
Proof.
  intros HM Hi c.
  assert (Hm : max_value c = Some M) by apply run_max_value.
  assert (Hb : 0 <= value c <= M) by by apply run_in_bounds.
  assert (Hinc : increment c
                 = if M <=? value c then ((false, value c), c)
                   else ((true, value c + 1), mk (value c + 1) (Some M))).
  { unfold increment. rewrite (limit_expr_bounded c M) by done.
    simpl. by rewrite Hm. }
  split; [done|]. rewrite Hinc.
  repeat split.
  - destruct (Z.leb_spec M (value c)); simpl; [lia | done].
  - intros ->. by rewrite Z.leb_refl.
  - intros ->. by rewrite Z.leb_refl.
  - intros Hlt. destruct (Z.leb_spec M (value c)); [lia | done].
  - unfold decrement. by rewrite Hm.
Qed.

(** A counter at 2 of 3 driven past its maximum and back. *)
Lemma counter_stays_in_bounds_witness :
  0 <= value (run (mk 2 (Some 3))
                  [Increment; Increment; Decrement; Increment]) <= 3.
Proof.
  apply (counter_stays_in_bounds 3 2
           [Increment; Increment; Decrement; Increment]); lia.
Defined.

(** C5 as stated fails: a counter built with a negative initial value
    is below zero after an [increment], although the initial value is
    at most the maximum. *)
Lemma counter_negative_initial :
  ¬ (forall (M initial : Z) (ops : list op),
       1 <= M -> initial <= M ->
       0 <= value (run (mk initial (Some M)) ops) <= M).
Proof.
  intros H. specialize (H 1 (-5) [Increment]). cbn in H. lia.
Qed.

Lemma limit_expr_unbounded (c : t) :
  max_value c = None ∨ max_value c = Some 0 ->
  truthy (limit_expr c) = false ∧ limit_expr c ≠ PyBool true.
Proof.
  unfold limit_expr. by intros [-> | ->].
Qed.

(** C10.  When [max_value] is [None] or 0, [increment] always accepts
    and adds one, and [reached_limit] never returns [True] (it returns
    the falsy [max_value] itself), in the initial state and after any
    sequence of calls; [n] increments raise the value by [n]. *)
Theorem counter_without_maximum (c : t) :
  max_value c = None ∨ max_value c = Some 0 ->
  increment c = ((true, value c + 1), mk (value c + 1) (max_value c))
  ∧ (forall ops : list op,
       reached_limit (run c ops) ≠ PyBool true
       ∧ truthy (reached_limit (run c ops)) = false
       ∧ (increment (run c ops)).1.1 = true)
  ∧ (forall n : nat,
       value (run c (repeat Increment n)) = value c + Z.of_nat n).
Proof.
  intros Hm.
  assert (Hinc : forall c' : t,
            max_value c' = None ∨ max_value c' = Some 0 ->
            increment c'
            = ((true, value c' + 1), mk (value c' + 1) (max_value c'))).
  { intros c' Hm'. unfold increment.
    by destruct (limit_expr_unbounded c' Hm') as [-> _]. }
  split; [by apply Hinc|]. split.
  - intros ops.
    assert (Hm' : max_value (run c ops) = None
                  ∨ max_value (run c ops) = Some 0)
      by by rewrite run_max_value.
    destruct (limit_expr_unbounded _ Hm') as [Ht Hne].
    unfold reached_limit. by rewrite (Hinc _ Hm').
  - intros n. revert c Hm. induction n as [|n IH]; intros c Hm.
    + unfold run. simpl. lia.
    + unfold run in *. cbn [repeat fold_left step].
      rewrite IH.
      * rewrite (Hinc c Hm). simpl. lia.
      * by rewrite (Hinc c Hm).
Qed.

(** The answer to the next increment, without a maximum and with 0. *)
Lemma counter_without_maximum_witness :
  increment (mk 41 None) = ((true, 42), mk 42 None)
  ∧ increment (mk 41 (Some 0)) = ((true, 42), mk 42 (Some 0)).
Proof.
  split.
  - apply (counter_without_maximum (mk 41 None)). by left.
  - apply (counter_without_maximum (mk 41 (Some 0))). by right.
Defined.

End CounterFacts.

(** ** Checkpoint files: rotation, atomic replacement, fallback *)

Section CheckpointFacts.

Import Checkpoint.

(** Reading back what [save_state] dumped gives the saved sets and
    counters, whatever was in [state] before. *)
Lemma try_read_snapshot (cm state : CursorManager.t) (now : Q) :
  try_read (snapshot cm now) state = (true, cm).
Proof.
  destruct cm as [p r f total last]. unfold snapshot, try_read. simpl.
  by rewrite !list_to_set_elements_L.
Qed.

(** [load_state] never opens the temp file. *)
Lemma load_state_ignores_temp (p b t t' : option contents) :
  load_state (mk_disk p b t) = load_state (mk_disk p b t').
Proof. done. Qed.

Lemma load_state_primary (d : disk) (c : contents)
    (state : CursorManager.t) :
  progress_file d = Some c ->
  try_read c CursorManager.init = (true, state) ->
  load_state d = state.
Proof.
  intros Hp Hr. unfold load_state. simpl. by rewrite Hp, Hr.
Qed.

Lemma load_state_fallback (d : disk) :
  progress_file d = None ∨ progress_file d = Some Unreadable ->
  load_state d
  = match backup_file d with
    | Some c => (try_read c CursorManager.init).2
    | None => CursorManager.init
    end.
Proof.
  intros Hp. unfold load_state.
  assert (Hl : load_loop [progress_file d; backup_file d]
                 CursorManager.init
               = load_loop [backup_file d] CursorManager.init)
    by (by destruct Hp as [-> | ->]).
  rewrite Hl. simpl. destruct (backup_file d) as [c|]; [|done].
  by destruct (try_read c CursorManager.init) as [[] ?].
Qed.

(** Rotating a readable primary file does not change what is loaded. *)
Lemma load_state_rotate (d : disk) :
  progress_readable d ->
  load_state (if exists_file (progress_file d) then rotate d else d)
  = load_state d.
Proof.
  unfold progress_readable. destruct d as [[c|] b t]; simpl; [|done].
  intros Hr. unfold load_state. simpl.
  destruct (try_read c CursorManager.init) as [ok state].
  simpl in Hr. by subst ok.
Qed.

(** C4, as the code has it.  Without file-operation failures
    [save_state] goes through four
    disk states: the primary file rotated to the backup path (when there
    is a primary file), the temp file opened, the temp file written in
    full, the temp file renamed onto the primary path.  [load_state]
    returns what the primary file holds when it reads it through, and
    what the backup file gives when the primary is missing or
    unreadable.  When the primary file is missing or readable before the
    save, a load from the disk as it is between the temp-file write and
    the rename returns what a load before the save returned, a load
    after the rename returns the saved state, and a load from any state
    on the way returns one of the two. *)
Theorem save_state_crash_safe (cm : CursorManager.t) (now : Q)
    (d0 : disk) :
  progress_readable d0 ->
  exists d1 d2 d3 d4 : disk,
    save_trace no_faults cm now d0 = [d1; d2; d3; d4]
    ∧ save_state no_faults cm now d0 = d4
    ∧ (progress_file d0 ≠ None ->
       progress_file d1 = None ∧ backup_file d1 = progress_file d0)
    ∧ (progress_file d0 = None -> d1 = d0)
    ∧ (progress_file d3 = progress_file d1
       ∧ backup_file d3 = backup_file d1
       ∧ temp_file d3 = Some (snapshot cm now))
    ∧ (progress_file d4 = Some (snapshot cm now)
       ∧ backup_file d4 = backup_file d1
       ∧ temp_file d4 = None)
    ∧ (forall (d : disk) (c : contents) (state : CursorManager.t),
         progress_file d = Some c ->
         try_read c CursorManager.init = (true, state) ->
         load_state d = state)
    ∧ (forall d : disk,
         progress_file d = None ∨ progress_file d = Some Unreadable ->
         load_state d
         = match backup_file d with
           | Some c => (try_read c CursorManager.init).2
           | None => CursorManager.init
           end)
    ∧ load_state d3 = load_state d0
    ∧ load_state d4 = cm
    ∧ Forall (fun d => load_state d = load_state d0 ∨ load_state d = cm)
             [d0; d1; d2; d3; d4].
Proof.
  intros Hr.
  pose proof (load_state_rotate d0 Hr) as Hrot.
  set (d1 := if exists_file (progress_file d0) then rotate d0 else d0)
    in *.
  exists d1, (truncate_temp d1),
    (write_temp (snapshot cm now) (truncate_temp d1)),
    (rename_temp (write_temp (snapshot cm now) (truncate_temp d1))).
  assert (H4 : load_state
                 (rename_temp
                    (write_temp (snapshot cm now) (truncate_temp d1)))
               = cm).
  { eapply load_state_primary; [done | apply try_read_snapshot]. }
  assert (H3 : load_state
                 (write_temp (snapshot cm now) (truncate_temp d1))
               = load_state d0).
  { by rewrite <- Hrot. }
  assert (H2 : load_state (truncate_temp d1) = load_state d0).
  { by rewrite <- Hrot. }
  split.
  { unfold save_trace, no_faults. simpl. subst d1.
    by rewrite andb_true_r. }
  split.
  { unfold save_state, save_trace, no_faults. simpl. subst d1.
    by rewrite andb_true_r. }
  split.
  { subst d1. destruct d0 as [[c|] b t]; simpl; [done | congruence]. }
  split.
  { subst d1. by intros ->. }
  split; [done|]. split; [done|].
  split; [apply load_state_primary|].
  split; [apply load_state_fallback|].
  split; [done|]. split; [done|].
  repeat (apply Forall_cons; split); [by left .. | by right | constructor].
Qed.

(** What [save_state] leaves on disk can be rotated safely: after a
    complete save the primary file is readable. *)
Lemma save_state_leaves_readable (cm : CursorManager.t) (now : Q)
    (d0 : disk) :
  progress_readable (save_state no_faults cm now d0).
Proof.
  unfold save_state, save_trace, no_faults, progress_readable.
  cbn -[try_read snapshot]. by rewrite try_read_snapshot.
Qed.

(** A second save over the checkpoint of an empty manager: cut short
    before the rename it loads as the empty manager, completed it loads
    as the manager that was saved. *)
Lemma save_state_crash_safe_witness :
  exists d1 d2 d3 d4 : disk,
    save_trace no_faults (CursorManager.mk {[1]} ∅ {[2]} 1 0) 20
      (mk_disk (Some (snapshot CursorManager.init 10)) None None)
    = [d1; d2; d3; d4]
    ∧ load_state d3 = CursorManager.init
    ∧ load_state d4 = CursorManager.mk {[1]} ∅ {[2]} 1 0.
Proof.
  destruct (save_state_crash_safe (CursorManager.mk {[1]} ∅ {[2]} 1 0) 20
              (mk_disk (Some (snapshot CursorManager.init 10)) None None))
    as (d1 & d2 & d3 & d4 & Htr & _ & _ & _ & _ & _ & _ & _ & H3 & H4 & _).
  { reflexivity. }
  exists d1, d2, d3, d4.
  split; [exact Htr|]. split; [|exact H4].
  rewrite H3.
  apply (load_state_primary _ (snapshot CursorManager.init 10));
    [reflexivity | apply try_read_snapshot].
Defined.

(** When the primary file is unreadable and the backup is good, the
    rotation replaces the good backup: a save cut short after it leaves
    nothing to load. *)
Example rotation_of_unreadable_primary :
  let d0 := mk_disk (Some Unreadable)
              (Some (snapshot (CursorManager.mk {[1]} ∅ ∅ 1 0) 10)) None in
  load_state d0 = CursorManager.mk {[1]} ∅ ∅ 1 0
  ∧ load_state (rotate d0) = CursorManager.init.
Proof.
  split; [|done].
  rewrite load_state_fallback by (by right).
  cbn [backup_file]. by rewrite try_read_snapshot.
Qed.

(** C4 as stated fails: when the primary file does not parse and the
    backup holds the state of an earlier run, which is what a load
    before the save returns, the rotation puts the unreadable file in
    the place of that backup; a load from the disk as it is between the
    temp-file write and the rename finds no primary file and an
    unreadable backup, and returns the empty state, which is neither
    what was loaded before the save nor what was being saved. *)
Lemma save_state_interrupted_over_corrupt_primary :
  ¬ (forall (cm : CursorManager.t) (now : Q) (d0 : disk),
       exists d1 d2 d3 d4 : disk,
         save_trace no_faults cm now d0 = [d1; d2; d3; d4]
         ∧ (load_state d3 = load_state d0 ∨ load_state d3 = cm)).
Proof.
  intros H.
  destruct (H Cases.current_run 20%Q Cases.corrupt_primary)
    as (d1 & d2 & d3 & d4 & Htr & Hload).
  assert (Hpre : load_state Cases.corrupt_primary = Cases.earlier_run).
  { rewrite load_state_fallback by (by right).
    cbn [backup_file Cases.corrupt_primary].
    by rewrite try_read_snapshot. }
  assert (Hmid : load_state d3 = CursorManager.init).
  { injection Htr as _ _ <- _. reflexivity. }
  rewrite Hmid, Hpre in Hload.
  destruct Hload as [Heq | Heq];
    apply (f_equal CursorManager.total_games_found) in Heq;
    discriminate.
Qed.

End CheckpointFacts.

(** ** make_request: attempts, cancellation, back-off *)

Section MakeRequestFacts.

Import Fetch.

Context {Response : Type}.
Variable n : net Response.
Variable retries : Z.








(** One unfolding of the loop, with the recursive call kept folded. *)
Lemma attempts_S (fuel a : nat) :
  attempts n retries (S fuel) a
  = if halted n a then (None, [])
    else
      match http n a with
      | RateLimited =>
          match rate_limit_wait a (jitter n a) with
          | Some w =>
              ((attempts n retries fuel (S a)).1,
               Get a :: Sleep w :: (attempts n retries fuel (S a)).2)
          | None => (None, [Get a; Raise])
          end
      | Delivered r => (Some r, [Get a])
      | RequestFailed =>
          if Z.of_nat a =? retries - 1 then (None, [Get a])
          else
            match error_wait a with
            | Some w =>
                ((attempts n retries fuel (S a)).1,
                 Get a :: Sleep w :: (attempts n retries fuel (S a)).2)
            | None => (None, [Get a; Raise])
            end
      end.
Proof.
  cbn [attempts]. destruct (halted n a); [done|].
  destruct (http n a); [|done|].
  - destruct (rate_limit_wait a (jitter n a)); [|done].
    by destruct (attempts n retries fuel (S a)).
  - destruct (Z.of_nat a =? retries - 1); [done|].
    destruct (error_wait a); [|done].
    by destruct (attempts n retries fuel (S a)).
Qed.

(** The cases of one iteration, in the order of the source: a flag; a
    429 answer, with or without overflow of its wait; a response; a
    request error at the last attempt; a request error at another
    attempt, with or without overflow of its wait. *)
Ltac loop_cases a :=
  rewrite attempts_S;
  destruct (halted n a) eqn:Hhalt;
  [| destruct (http n a) eqn:Hhttp;
     [ destruct (rate_limit_wait a (jitter n a)) as [w|] eqn:Hwait
     |
     | destruct (Z.of_nat a =? retries - 1) eqn:Hlast;
       [| destruct (error_wait a) as [w|] eqn:Hwait]]];
  cbn [fst snd].

Lemma attempts_count (fuel : nat) :
  forall a : nat,
    (length (List.filter is_get (attempts n retries fuel a).2) <= fuel)%nat.
Proof.
  induction fuel as [|fuel IH]; intros a; [simpl; lia|].
  loop_cases a; simpl; try lia; specialize (IH (S a)); lia.
Qed.












End MakeRequestFacts.





(** ** get_app_reviews: page cap, truncation, end of pagination *)

Section ReviewFacts.

Import Fetch.

Context {Review : Type}.
Variable e : review_env Review.
Variable num_reviews : Z.

(** One unfolding of the page loop, with the recursive call folded. *)
Lemma review_pages_S (fuel page : nat) (reviews : list Review)
    (cursor : option string) :
  review_pages e num_reviews (S fuel) page reviews cursor
  = if page_halted e page || (num_reviews <=? Z.of_nat (length reviews))
    then (reviews, [])
    else
      let num_to_fetch :=
        Z.min 100 (num_reviews - Z.of_nat (length reviews)) in
      let response :=
        (make_request (server e page cursor num_to_fetch) 1).1 in
      let entry := mk_page_request cursor num_to_fetch response in
      match response with
      | Some (Payload success found next) =>
          if success && truthy_reviews found
          then
            if negb (truthy_opt_str next) || is_nil (default [] found)
            then (reviews ++ default [] found, [entry])
            else
              ((review_pages e num_reviews fuel (S page)
                  (reviews ++ default [] found) next).1,
               entry
                 :: (review_pages e num_reviews fuel (S page)
                       (reviews ++ default [] found) next).2)
          else (reviews, [entry])
      | Some InvalidJson => (reviews, [entry])
      | None => (reviews, [entry])
      end.
Proof.
  simpl. destruct (_ || _); [done|].
  destruct (make_request _ 1).1 as [[|success found next]|]; try done.
  destruct (success && truthy_reviews found); [|done].
  destruct (negb (truthy_opt_str next) || is_nil (default [] found));
    [done|].
  by destruct (review_pages _ _ _ _ _ _).
Qed.

Lemma no_records_records_of (p : page_request Review) :
  no_records p = true -> records_of p = [].
Proof.
  unfold no_records, records_of.
  destruct (answer p) as [[|success [[|r l]|] next]|]; try done.
  all: by destruct success.
Qed.

(** The loop makes at most [fuel] requests, returns the records of the
    logged pages appended to what it started with, and logs nothing
    after a page that lacks a next cursor or records. *)
Lemma review_pages_spec (fuel : nat) :
  forall (page : nat) (reviews : list Review) (cursor : option string),
    (length (review_pages e num_reviews fuel page reviews cursor).2
     <= fuel)%nat
    ∧ (review_pages e num_reviews fuel page reviews cursor).1
      = reviews
        ++ concat (map records_of
             (review_pages e num_reviews fuel page reviews cursor).2)
    ∧ (forall (k : nat) (p : page_request Review),
         (review_pages e num_reviews fuel page reviews cursor).2 !! k
         = Some p ->
         no_cursor p || no_records p = true ->
         length (review_pages e num_reviews fuel page reviews cursor).2
         = S k).
Proof.
  induction fuel as [|fuel IH]; intros page reviews cursor.
  { simpl. split; [lia|]. split; [by rewrite app_nil_r | done]. }
  rewrite review_pages_S.
  destruct (_ || _).
  { simpl. split; [lia|]. split; [by rewrite app_nil_r | done]. }
  cbv zeta.
  set (num := Z.min 100 (num_reviews - Z.of_nat (length reviews))).
  assert (Hstop : forall (resp : option (body Review))
                         (p : page_request Review) (k : nat),
            [mk_page_request cursor num resp] !! k = Some p ->
            length [mk_page_request cursor num resp] = S k).
  { intros resp p [|k] Hk; [done|]. by destruct k. }
  destruct (make_request (server e page cursor num) 1).1
    as [[|success found next]|] eqn:Hresp.
  - cbn [fst snd]. split; [simpl; lia|].
    split; [by rewrite app_nil_r | eauto].
  - destruct (success && truthy_reviews found) eqn:Hok.
    + apply andb_true_iff in Hok as [-> Hfound].
      destruct found as [[|r l]|]; try done.
      destruct (negb (truthy_opt_str next) || is_nil (default [] (Some (r :: l))))
        eqn:Hend.
      * cbn [fst snd]. split; [simpl; lia|].
        split; [simpl; by rewrite app_nil_r | eauto].
      * destruct (IH (S page) (reviews ++ default [] (Some (r :: l))) next)
          as (Hlen & Hres & Hlast).
        cbn [fst snd]. split; [cbn [length]; lia|]. split.
        { rewrite Hres at 1. cbn [map concat records_of answer default].
          by rewrite <- !app_assoc. }
        intros [|k] p Hk Hp.
        { injection Hk as <-. unfold no_cursor, no_records in Hp.
          simpl in Hp, Hend.
          apply orb_false_iff in Hend as [Hend _].
          rewrite Hend in Hp. done. }
        cbn [length]. f_equal. by apply (Hlast k p).
    + cbn [fst snd]. split; [simpl; lia|]. split; [|eauto].
      simpl. unfold records_of at 1. simpl.
      destruct success; [|by rewrite app_nil_r].
      destruct found as [[|r l]|]; [by rewrite app_nil_r | done |].
      by rewrite app_nil_r.
  - cbn [fst snd]. split; [simpl; lia|].
    split; [by rewrite app_nil_r | eauto].
Qed.

Lemma slice_to_length (l : list Review) :
  0 <= num_reviews ->
  (length (slice_to num_reviews l) <= Z.to_nat num_reviews)%nat.
Proof.
  intros Hn. unfold slice_to.
  destruct (Z.ltb_spec num_reviews 0); [lia|].
  rewrite length_take. lia.
Qed.

(** C9.  [get_app_reviews] makes at most 10 page requests whatever
    count is asked for, and returns at most [num_reviews] records (none
    when the count is not positive).  A page without a next cursor or
    without records is the last one requested; when a page comes back
    without records, even with a cursor, the list returned is the one
    accumulated from the pages before it, cut to [num_reviews]. *)
Theorem get_app_reviews_pagination :
  let result := (get_app_reviews e num_reviews).1 in
  let log := (get_app_reviews e num_reviews).2 in
  (length log <= 10)%nat
  ∧ (length result <= Z.to_nat num_reviews)%nat
  ∧ (forall (k : nat) (p : page_request Review),
       log !! k = Some p ->
       no_cursor p = true ∨ no_records p = true ->
       length log = S k)
  ∧ (forall (k : nat) (p : page_request Review),
       log !! k = Some p ->
       no_records p = true ->
       result
       = slice_to num_reviews (concat (map records_of (take k log)))).
Proof.
  intros result log. subst result log. unfold get_app_reviews.
  destruct (entry_halted e).
  { simpl. split; [lia|]. split; [lia|]. by split. }
  destruct (review_pages_spec (Z.to_nat (max_pages num_reviews)) 0 []
              (Some "*"%string)) as (Hlen & Hres & Hlast).
  destruct (review_pages e num_reviews (Z.to_nat (max_pages num_reviews))
              0 [] (Some "*"%string)) as [reviews log] eqn:Hrun.
  cbn [fst snd] in *.
  split.
  { unfold max_pages in Hlen. lia. }
  split.
  { destruct (Z.le_gt_cases 0 num_reviews) as [Hn|Hn].
    - by apply slice_to_length.
    - assert (Hz : Z.to_nat (max_pages num_reviews) = 0%nat).
      { unfold max_pages.
        assert ((num_reviews + 99) / 100 <= 0)
          by (apply Z.lt_succ_r, Z.div_lt_upper_bound; lia).
        lia. }
      rewrite Hz in Hrun. simpl in Hrun. injection Hrun as <- <-.
      unfold slice_to.
      destruct (num_reviews <? 0); rewrite take_nil; simpl; lia. }
  split.
  { intros k p Hk Hp. apply (Hlast k p Hk).
    destruct Hp as [-> | ->]; [done | by rewrite orb_true_r]. }
  intros k p Hk Hp.
  assert (Hl : length log = S k).
  { apply (Hlast k p Hk). by rewrite Hp, orb_true_r. }
  rewrite Hres. simpl. f_equal.
  rewrite <- (take_drop k log) at 1.
  rewrite (drop_S log p k Hk), drop_ge by lia.
  rewrite map_app, concat_app. simpl.
  by rewrite (no_records_records_of p Hp), !app_nil_r.
Qed.

End ReviewFacts.

(** Page 1 has two records, page 2 a cursor and none: two requests,
    and the two records of page 1 are returned. *)
Lemma get_app_reviews_pagination_witness :
  (Fetch.get_app_reviews Scenario.empty_second_page 150).1 = [11; 12]%nat
  ∧ length (Fetch.get_app_reviews Scenario.empty_second_page 150).2
    = 2%nat.
Proof.
  destruct (get_app_reviews_pagination Scenario.empty_second_page 150)
    as (_ & _ & H3 & H4).
  split.
  - rewrite (H4 1%nat
               (Fetch.mk_page_request (Some "c1"%string) 100
                  (Some (Fetch.Payload true (Some [])
                           (Some "c2"%string)))));
      reflexivity.
  - apply (H3 1%nat
             (Fetch.mk_page_request (Some "c1"%string) 100
                (Some (Fetch.Payload true (Some [])
                         (Some "c2"%string)))));
      [reflexivity | right; reflexivity].
Defined.

(** ** processar_um_jogo: the reservation and the counter on every path *)

Section WorkerFacts.

Import Worker.

Variable e : env.
Variable max_reviews : Z.

(** What the [try] block does to the cursor manager: a [return True]
    comes after a success marking, a [return False] after a failure
    marking, and an exception leaves the manager as it was. *)
Lemma try_block_cursor_manager (appid : Z) (w : world) :
  match try_block e max_reviews appid w with
  | Returned true w' =>
      cursor_manager w'
      = CursorManager.mark_processed (cursor_manager w) appid true
  | Returned false w' =>
      cursor_manager w'
      = CursorManager.mark_processed (cursor_manager w) appid false
  | Raised w' => cursor_manager w' = cursor_manager w
  end.
Proof.
  unfold try_block.
  destruct (fetched e) as [| |d]; [done | done |].
  destruct (goal_reached (observe e 2 w)); [done|].
  destruct (_is_valid_game d) as [[|]|]; [|done|done].
  destruct (ThreadSafeCounter.increment (games_counter (observe e 2 w)))
    as [[success v] c].
  destruct success; simpl.
  - destruct (goal_reached w || (signals e 2).2 || (signals e 3).2);
      [done|].
    destruct (save_details_ok e); simpl; [|done].
    destruct (0 <? max_reviews); simpl.
    + destruct (negb _ && reviews_raise e); [done|].
      by destruct (limit_reached _).
    + by destruct (limit_reached _).
  - done.
Qed.

(** What the [try] block does to the counter when it raises: nothing
    if the exception comes from the fetch or the validation, one
    increment if it comes from the review phase. *)
Lemma try_block_raised_counter (appid : Z) (w w' : world) :
  try_block e max_reviews appid w = Raised w' ->
  (games_counter w' = games_counter w
   ∧ (fetched e = FetchRaises
      ∨ exists d, fetched e = FetchPayload d ∧ _is_valid_game d = None))
  ∨ (games_counter w'
     = (ThreadSafeCounter.increment (games_counter w)).2
     ∧ (ThreadSafeCounter.increment (games_counter w)).1.1 = true
     ∧ reviews_raise e = true).
Proof.
  unfold try_block.
  destruct (fetched e) as [| |d] eqn:Hf; [| done |].
  { intros [= <-]. left. split; [done | by left]. }
  destruct (goal_reached (observe e 2 w)); [done|].
  destruct (_is_valid_game d) as [[|]|] eqn:Hv; [|done|].
  2:{ intros [= <-]. left. split; [done|]. right. by exists d. }
  simpl.
  destruct (ThreadSafeCounter.increment (games_counter w))
    as [[success v] c].
  destruct success; simpl; [|done].
  destruct (goal_reached w || (signals e 2).2 || (signals e 3).2);
    [done|].
  destruct (save_details_ok e); simpl; [|done].
  destruct (0 <? max_reviews); simpl.
  - destruct (reviews_raise e) eqn:Hr.
    + destruct (negb _); simpl; [|by destruct (limit_reached _)].
      intros [= <-]. by right.
    + rewrite andb_false_r. by destruct (limit_reached _).
  - by destruct (limit_reached _).
Qed.

Lemma after_reserve_cursor_manager (appid : Z) (w : world) :
  let out := after_reserve e max_reviews appid w in
  if out.1
  then cursor_manager (out.2)
       = CursorManager.mark_processed (cursor_manager w) appid true
  else cursor_manager (out.2)
       = CursorManager.mark_processed (cursor_manager w) appid false
       ∨ cursor_manager (out.2)
         = CursorManager.release_reservation (cursor_manager w) appid.
Proof.
  unfold after_reserve. destruct (limit_reached w); [by right|].
  pose proof (try_block_cursor_manager appid w) as H.
  destruct (try_block e max_reviews appid w) as [[|] w'|w']; simpl.
  - done.
  - by left.
  - right. by rewrite H.
Qed.


(** When the fetch raises, the routine ends with the counter one lower
    (floored at zero) than it found it, whatever the counter held. *)
Lemma fetch_raises_decrements (app : CursorManager.game) (w : world)
    (appid : Z) (cm : CursorManager.t) :
  (stop_processing (observe e 0 w) || goal_reached (observe e 0 w)) = false ->
  CursorManager.appid app = Some appid ->
  truthy_int appid = true ->
  CursorManager.reserve_appid (cursor_manager w) appid = (true, cm) ->
  limit_reached w = false ->
  fetched e = FetchRaises ->
  ThreadSafeCounter.value
    (games_counter (processar_um_jogo e max_reviews app w).2)
  = Z.max 0 (ThreadSafeCounter.value (games_counter w) - 1).
Proof.
  intros Hflags Happ Htruthy Hres Hlimit Hfetch.
  unfold processar_um_jogo. cbv zeta.
  change (cursor_manager w) with (cursor_manager (observe e 0 w)) in Hres.
  rewrite Hflags, Happ, Htruthy, Hres. cbn [negb].
  unfold after_reserve.
  change (limit_reached (with_cm (observe e 0 w) cm))
    with (limit_reached w).
  rewrite Hlimit. unfold try_block. by rewrite Hfetch.
Qed.

End WorkerFacts.


(** C6.  With two games counted out of three, an item whose detail
    fetch raises, or whose validation raises, never reaches the
    increment; the [except] clause releases the reservation and still
    decrements, so the call leaves the counter at 1.  When the exception
    comes after the increment (the review phase raises), the decrement
    undoes it and the counter is back at 2. *)
Theorem exception_before_increment_decrements :
  ThreadSafeCounter.value
    (Worker.games_counter
       (Worker.processar_um_jogo Scenario.fetch_raises 10
          Scenario.game7 Scenario.two_of_three).2) = 1
  ∧ ThreadSafeCounter.value
      (Worker.games_counter
         (Worker.processar_um_jogo Scenario.validation_raises 10
            Scenario.game7 Scenario.two_of_three).2) = 1
  ∧ ThreadSafeCounter.value
      (Worker.games_counter
         (Worker.processar_um_jogo Scenario.reviews_fail 10
            Scenario.game7 Scenario.two_of_three).2) = 2
  ∧ CursorManager.reserved_appids
      (Worker.cursor_manager
         (Worker.processar_um_jogo Scenario.fetch_raises 10
            Scenario.game7 Scenario.two_of_three).2) = ∅.
Proof.
  repeat split; vm_compute; reflexivity.
Qed.

(** * Further properties of the code *)

(** ** CursorManager: round trip, separation, terminal ids *)

Section CursorManagerMore.

Import CursorManager.

(** A granted reservation followed by its release gives back the
    manager as it was. *)
Theorem reserve_release_round_trip (cm cm' : t) (id : Z) :
  reserve_appid cm id = (true, cm') ->
  release_reservation cm' id = cm.
Proof.
  unfold reserve_appid. intros Hres.
  destruct (bool_decide (id ∈ processed_appids cm)) eqn:Hp; [done|].
  destruct (bool_decide (id ∈ reserved_appids cm)) eqn:Hr; [done|].
  destruct (bool_decide (id ∈ failed_appids cm)) eqn:Hf; [done|].
  apply bool_decide_eq_false in Hr.
  injection Hres as <-. destruct cm as [P R F total last].
  unfold release_reservation, with_reserved. simpl in *.
  f_equal. set_solver.
Qed.

Lemma reserve_release_round_trip_witness :
  release_reservation (reserve_appid (mk {[1]} {[2]} {[3]} 1 0) 7).2 7
  = mk {[1]} {[2]} {[3]} 1 0.
Proof.
  apply (reserve_release_round_trip (mk {[1]} {[2]} {[3]} 1 0)).
  rewrite reserve_appid_grants by set_solver. reflexivity.
Defined.

Lemma step_keeps_apart (cm : t) (o : op) :
  reserved_appids cm ## processed_appids cm ∪ failed_appids cm ->
  reserved_appids (step cm o).2
  ## processed_appids (step cm o).2 ∪ failed_appids (step cm o).2.
Proof.
  intros Hd. destruct o as [a|a [|]|a]; simpl.
  - unfold reserve_appid.
    destruct (bool_decide (a ∈ processed_appids cm)) eqn:Hp; [done|].
    destruct (bool_decide (a ∈ reserved_appids cm)) eqn:Hr; [done|].
    destruct (bool_decide (a ∈ failed_appids cm)) eqn:Hf; [done|].
    apply bool_decide_eq_false in Hp, Hf. simpl. set_solver.
  - set_solver.
  - set_solver.
  - set_solver.
Qed.

Lemma run_cons (cm : t) (o : op) (ops : list op) :
  run cm (o :: ops) = run (step cm o).2 ops.
Proof. unfold run. by rewrite run_log_cons. Qed.

Lemma run_keeps_apart (ops : list op) :
  forall cm : t,
    reserved_appids cm ## processed_appids cm ∪ failed_appids cm ->
    reserved_appids (run cm ops)
    ## processed_appids (run cm ops) ∪ failed_appids (run cm ops).
Proof.
  induction ops as [|o ops IH]; intros cm Hd; [done|].
  rewrite run_cons. by apply IH, step_keeps_apart.
Qed.

(** Whatever operations are applied, in whatever order, an id that is
    reserved is never at the same time processed or failed, provided
    this held to begin with. *)
Theorem reserved_apart_from_terminal (ops : list op) :
  forall cm : t,
    reserved_appids cm ## processed_appids cm ∪ failed_appids cm ->
    reserved_appids (run cm ops)
    ## processed_appids (run cm ops) ∪ failed_appids (run cm ops).
Proof. apply run_keeps_apart. Qed.

Lemma reserved_apart_from_terminal_witness :
  reserved_appids
    (run init [Reserve 1; Reserve 2; MarkProcessed 1 true;
               MarkProcessed 1 false; Release 2; Reserve 1])
  ## processed_appids
       (run init [Reserve 1; Reserve 2; MarkProcessed 1 true;
                  MarkProcessed 1 false; Release 2; Reserve 1])
     ∪ failed_appids
         (run init [Reserve 1; Reserve 2; MarkProcessed 1 true;
                    MarkProcessed 1 false; Release 2; Reserve 1]).
Proof.
  apply (reserved_apart_from_terminal
           [Reserve 1; Reserve 2; MarkProcessed 1 true;
            MarkProcessed 1 false; Release 2; Reserve 1] init).
  simpl. set_solver.
Defined.

Lemma step_keeps_terminal (cm : t) (id : Z) (o : op) :
  id ∈ processed_appids cm ∪ failed_appids cm ->
  id ∈ processed_appids (step cm o).2 ∪ failed_appids (step cm o).2.
Proof.
  intros Hin. destruct o as [a|a [|]|a]; simpl.
  - unfold reserve_appid. by destruct (_ || _ || _).
  - destruct (decide (id = a)); set_solver.
  - set_solver.
  - done.
Qed.

Lemma step_terminal_not_granted (cm : t) (id : Z) (o : op) :
  id ∈ processed_appids cm ∪ failed_appids cm ->
  granted id (o, (step cm o).1) = false.
Proof.
  intros Hin. destruct o as [a|a s|a]; simpl; try done.
  destruct (decide (a = id)) as [->|Hne].
  - rewrite reserve_appid_refuses; [done | set_solver].
  - destruct (reserve_appid cm a) as [[] ?]; simpl; [|done].
    by apply bool_decide_eq_false.
Qed.

Lemma terminal_stays (id : Z) (ops : list op) :
  forall cm : t,
    id ∈ processed_appids cm ∪ failed_appids cm ->
    id ∈ processed_appids (run cm ops) ∪ failed_appids (run cm ops)
    ∧ List.filter (granted id) (run_log cm ops).1 = [].
Proof.
  induction ops as [|o ops IH]; intros cm Hin; [done|].
  rewrite run_cons, run_log_cons. cbn [fst List.filter].
  rewrite step_terminal_not_granted by done.
  by apply IH, step_keeps_terminal.
Qed.

(** An id that is processed or failed stays processed or failed under
    every sequence of operations, and no [reserve_appid] call for it is
    ever granted again: within one loaded state a failed id is never
    retried. *)
Theorem terminal_ids_stay_refused (cm : t) (id : Z) (ops : list op) :
  id ∈ processed_appids cm ∪ failed_appids cm ->
  id ∈ processed_appids (run cm ops) ∪ failed_appids (run cm ops)
  ∧ List.filter (granted id) (run_log cm ops).1 = []
  ∧ reserve_appid (run cm ops) id = (false, run cm ops).
Proof.
  intros Hin. destruct (terminal_stays id ops cm Hin) as [Ht Hg].
  split; [done|]. split; [done|].
  apply reserve_appid_refuses. set_solver.
Qed.

Lemma terminal_ids_stay_refused_witness :
  reserve_appid
    (run (mk ∅ ∅ {[5]} 0 0) [Reserve 5; Release 5; MarkProcessed 6 true])
    5
  = (false,
     run (mk ∅ ∅ {[5]} 0 0) [Reserve 5; Release 5; MarkProcessed 6 true]).
Proof.
  apply (terminal_ids_stay_refused (mk ∅ ∅ {[5]} 0 0) 5
           [Reserve 5; Release 5; MarkProcessed 6 true]).
  simpl. set_solver.
Defined.

Lemma guarded_invariant (ops : list op) :
  forall cm : t,
    processed_appids cm ## failed_appids cm ->
    reserved_appids cm ## processed_appids cm ∪ failed_appids cm ->
    Protocol.guarded cm ops = true ->
    processed_appids (run cm ops) ## failed_appids (run cm ops).
Proof.
  induction ops as [|o ops IH]; intros cm Hd Ha Hg; [done|].
  simpl in Hg. apply andb_true_iff in Hg as [Ho Hg].
  rewrite run_cons. apply IH; [| by apply step_keeps_apart | done].
  apply step_preserves_disjoint; [done|].
  intros a ->. apply bool_decide_eq_true in Ho. set_solver.
Qed.

(** When every terminal marking targets an id that is reserved at that
    moment, which is how the worker routine uses the manager, no id is
    ever both processed and failed. *)
Theorem guarded_marking_keeps_terminal_sets_disjoint (cm : t)
    (ops : list op) :
  processed_appids cm ## failed_appids cm ->
  reserved_appids cm ## processed_appids cm ∪ failed_appids cm ->
  Protocol.guarded cm ops = true ->
  processed_appids (run cm ops) ## failed_appids (run cm ops).
Proof. apply guarded_invariant. Qed.

Lemma guarded_marking_keeps_terminal_sets_disjoint_witness :
  processed_appids
    (run init [Reserve 1; MarkProcessed 1 true; Reserve 1;
               Reserve 2; MarkProcessed 2 false])
  ## failed_appids
       (run init [Reserve 1; MarkProcessed 1 true; Reserve 1;
                  Reserve 2; MarkProcessed 2 false]).
Proof.
  apply (guarded_marking_keeps_terminal_sets_disjoint init
           [Reserve 1; MarkProcessed 1 true; Reserve 1;
            Reserve 2; MarkProcessed 2 false]).
  - simpl. set_solver.
  - simpl. set_solver.
  - vm_compute. reflexivity.
Defined.

End CursorManagerMore.

(** ** ThreadSafeCounter: compensation *)

Section CounterMore.

Import ThreadSafeCounter.

(** An accepted [increment] followed by a [decrement] restores a
    non-negative counter; after a refused [increment] the same
    [decrement] takes away a count that was never added. *)
Theorem decrement_compensates_increment (c : t) :
  0 <= value c ->
  ((increment c).1.1 = true -> (decrement (increment c).2).2 = c)
  ∧ ((increment c).1.1 = false ->
     (decrement (increment c).2).2
     = mk (Z.max 0 (value c - 1)) (max_value c)).
Proof.
  intros Hv. unfold increment.
  destruct (truthy (limit_expr c)); simpl; split; try done.
  intros _. unfold decrement. simpl. destruct c as [v m]. simpl in *.
  f_equal. lia.
Qed.

Lemma decrement_compensates_increment_witness :
  (decrement (increment (mk 2 (Some 3))).2).2 = mk 2 (Some 3)
  ∧ (decrement (increment (mk 3 (Some 3))).2).2 = mk 2 (Some 3).
Proof.
  split.
  - apply (decrement_compensates_increment (mk 2 (Some 3))).
    + simpl. lia.
    + reflexivity.
  - apply (decrement_compensates_increment (mk 3 (Some 3))).
    + simpl. lia.
    + reflexivity.
Defined.

End CounterMore.

(** ** Checkpoint files: failed saves, generations, broken files *)

Section CheckpointMore.

Import Checkpoint.

Lemma load_state_restore (p b t : option contents) :
  load_state (mk_disk b None t) = load_state (mk_disk None b t).
Proof.
  unfold load_state. simpl. destruct b as [c|]; [|done].
  by destruct (try_read c CursorManager.init) as [[] ?].
Qed.

Lemma load_state_recovery (flt : faults) (d : disk) :
  progress_file d = None ->
  load_state (List.last (recovery flt d) d) = load_state d.
Proof.
  intros Hp. unfold recovery.
  destruct (exists_file (backup_file d) && negb (restore_fails flt));
    [|done].
  simpl. destruct d as [p b t]. simpl in *. subst p.
  unfold restore. simpl. apply (load_state_restore None).
Qed.

Lemma last_app_recovery (flt : faults) (pre : list disk) (d d0 : disk) :
  List.last ((pre ++ [d]) ++ recovery flt d) d0
  = List.last (recovery flt d) d.
Proof.
  unfold recovery.
  destruct (exists_file (backup_file d) && negb (restore_fails flt)).
  - by rewrite last_last.
  - rewrite app_nil_r. by rewrite last_last.
Qed.

(** When the rotation works and the temp-file write or the rename
    raises, [save_state] returns with a disk that loads exactly as the
    disk it found, whether or not the restore of the backup works,
    given a primary file that was missing or readable. *)
Theorem failed_save_loads_as_before (flt : faults)
    (cm : CursorManager.t) (now : Q) (d0 : disk) :
  progress_readable d0 ->
  rotate_fails flt = false ->
  write_fails flt = true ∨ rename_fails flt = true ->
  load_state (save_state flt cm now d0) = load_state d0.
Proof.
  intros Hr Hrot Hfail.
  pose proof (load_state_rotate d0 Hr) as Hl.
  unfold save_state, save_trace. rewrite Hrot, andb_true_r.
  set (d1 := if exists_file (progress_file d0) then rotate d0 else d0)
    in *.
  assert (Hp1 : progress_file d1 = None
                ∨ (progress_file d0 = None ∧ d1 = d0)).
  { subst d1. destruct d0 as [[c|] b t]; simpl; auto. }
  assert (Hnone : progress_file d1 = None).
  { destruct Hp1 as [?|[? ->]]; done. }
  destruct (write_fails flt) eqn:Hw.
  - change [d1; truncate_temp d1] with ([d1] ++ [truncate_temp d1]).
    rewrite last_app_recovery, load_state_recovery by done.
    by rewrite <- Hl.
  - destruct Hfail as [?|Hren]; [done|]. rewrite Hren.
    change [d1; truncate_temp d1;
            write_temp (snapshot cm now) (truncate_temp d1)]
      with ([d1; truncate_temp d1]
            ++ [write_temp (snapshot cm now) (truncate_temp d1)]).
    rewrite last_app_recovery, load_state_recovery by done.
    by rewrite <- Hl.
Qed.

Lemma failed_save_loads_as_before_witness :
  load_state
    (save_state (mk_faults false false true true)
       (CursorManager.mk {[1]} ∅ ∅ 1 0) 20
       (mk_disk (Some (snapshot CursorManager.init 10)) None None))
  = CursorManager.init.
Proof.
  rewrite (failed_save_loads_as_before (mk_faults false false true true)
             (CursorManager.mk {[1]} ∅ ∅ 1 0) 20
             (mk_disk (Some (snapshot CursorManager.init 10)) None None)).
  - apply (load_state_primary _ (snapshot CursorManager.init 10));
      [reflexivity | apply try_read_snapshot].
  - reflexivity.
  - reflexivity.
  - by right.
Defined.

(** When the rotation raises as well, so that the newer state is still
    in the primary file, the restore in the [except] branch moves the
    older backup over it: a load then returns the state saved before
    the last one. *)
Theorem double_fault_restores_older_backup (older newer cm : CursorManager.t)
    (t0 t1 now : Q) (tmp : option contents) (flt : faults) :
  rotate_fails flt = true ->
  write_fails flt = true ->
  restore_fails flt = false ->
  let d0 := mk_disk (Some (snapshot newer t1)) (Some (snapshot older t0))
              tmp in
  load_state d0 = newer
  ∧ load_state (save_state flt cm now d0) = older.
Proof.
  intros Hrot Hw Hres d0. split.
  - apply (load_state_primary _ (snapshot newer t1));
      [done | apply try_read_snapshot].
  - unfold save_state, save_trace, recovery.
    rewrite Hrot, Hw, Hres. simpl.
    apply (load_state_primary _ (snapshot older t0));
      [done | apply try_read_snapshot].
Qed.

Lemma double_fault_restores_older_backup_witness :
  load_state
    (save_state (mk_faults true true false false)
       (CursorManager.mk {[1; 2; 3]} ∅ ∅ 3 0) 30
       (mk_disk (Some (snapshot (CursorManager.mk {[1; 2]} ∅ ∅ 2 0) 20))
          (Some (snapshot (CursorManager.mk {[1]} ∅ ∅ 1 0) 10)) None))
  = CursorManager.mk {[1]} ∅ ∅ 1 0.
Proof.
  apply (double_fault_restores_older_backup
           (CursorManager.mk {[1]} ∅ ∅ 1 0)
           (CursorManager.mk {[1; 2]} ∅ ∅ 2 0)
           (CursorManager.mk {[1; 2; 3]} ∅ ∅ 3 0)
           10 20 30 None (mk_faults true true false false));
    reflexivity.
Defined.

(** After two complete saves the backup file holds the first state and
    the primary file the second: a load returns the second, and a load
    once the primary file is lost returns the first. *)
Theorem backup_is_previous_generation (cm1 cm2 : CursorManager.t)
    (t1 t2 : Q) (d0 : disk) :
  let d2 := save_state no_faults cm2 t2 (save_state no_faults cm1 t1 d0) in
  progress_file d2 = Some (snapshot cm2 t2)
  ∧ backup_file d2 = Some (snapshot cm1 t1)
  ∧ load_state d2 = cm2
  ∧ load_state (mk_disk None (backup_file d2) (temp_file d2)) = cm1.
Proof.
  unfold save_state, save_trace, no_faults.
  cbn -[snapshot load_state].
  split; [done|]. split; [done|]. split.
  - apply (load_state_primary _ (snapshot cm2 t2));
      [done | apply try_read_snapshot].
  - rewrite load_state_fallback by (by left).
    cbn [backup_file]. by rewrite try_read_snapshot.
Qed.

(** A primary file that breaks after its first key (its
    ['reserved_appids'] is not a list) is abandoned for the backup; a
    readable backup then decides the whole state, but without one the
    processed ids of the broken file stay in the state that is
    loaded. *)
Theorem load_state_broken_primary (p : list Z) (f : set_field)
    (total last : option Z) (ts : option Q) (b tmp : option contents) :
  let d := mk_disk (Some (Object (FieldList p) FieldNotIterable f
                            total last ts)) b tmp in
  (forall (c : contents) (state : CursorManager.t),
     b = Some c ->
     (forall s, try_read c s = (true, state)) ->
     load_state d = state)
  ∧ (b = None ∨ b = Some Unreadable ->
     load_state d = CursorManager.mk (list_to_set p) ∅ ∅ 0 0).
Proof.
  intros d. split.
  - intros c state -> Hc. unfold load_state. simpl. by rewrite Hc.
  - by intros [-> | ->].
Qed.

Lemma load_state_broken_primary_witness :
  load_state
    (mk_disk (Some (Object (FieldList [4; 5]) FieldNotIterable
                      FieldMissing None None None))
       (Some (snapshot (CursorManager.mk {[1]} ∅ ∅ 1 0) 10)) None)
  = CursorManager.mk {[1]} ∅ ∅ 1 0
  ∧ load_state
      (mk_disk (Some (Object (FieldList [4; 5]) FieldNotIterable
                        FieldMissing None None None)) None None)
    = CursorManager.mk (list_to_set [4; 5]) ∅ ∅ 0 0.
Proof.
  split.
  - destruct (load_state_broken_primary [4; 5] FieldMissing None None None
                (Some (snapshot (CursorManager.mk {[1]} ∅ ∅ 1 0) 10)) None)
      as [H _].
    apply (H (snapshot (CursorManager.mk {[1]} ∅ ∅ 1 0) 10));
      [reflexivity | intros s; apply try_read_snapshot].
  - destruct (load_state_broken_primary [4; 5] FieldMissing None None None
                None None) as [_ H].
    apply H. by left.
Defined.

End CheckpointMore.

(** ** ProxyManager: loading, rotation, failed proxies *)

Section ProxyMore.

Import ProxyManager.

Lemma collect_well_formed (strip : string -> string)
    (raw_proxies : list string) :
  Forall (fun p => truthy_str p = true ∧ starts_with_http p = true)
         (collect strip raw_proxies)
  ∧ (length (collect strip raw_proxies) <= length raw_proxies)%nat.
Proof.
  induction raw_proxies as [|p rest [IH1 IH2]]; [by split|].
  simpl. destruct (truthy_str (strip p)) eqn:Ht; simpl.
  - split; [|lia]. apply Forall_cons. split; [|done].
    destruct (starts_with_http (strip p)) eqn:Hs; [done|].
    by split.
  - split; [done | lia].
Qed.

(** Whatever the file holds, every proxy [_load_proxies] returns is a
    non-empty string that starts with ["http"], there are no more of
    them than pieces between commas and newlines, and without a
    readable file there are none. *)
Theorem load_proxies_well_formed (strip : string -> string)
    (file : option string) :
  Forall (fun p => truthy_str p = true ∧ starts_with_http p = true)
         (_load_proxies strip file)
  ∧ (forall content : string,
       file = Some content ->
       (length (_load_proxies strip file)
        <= length (split_commas (replace_newlines content)))%nat)
  ∧ (file = None -> _load_proxies strip file = []).
Proof.
  destruct file as [content|]; simpl.
  - destruct (collect_well_formed strip
                (split_commas (replace_newlines content))) as [H1 H2].
    split; [done|]. split; [|done]. by intros ? [= <-].
  - split; [done|]. by split.
Qed.

Lemma load_proxies_well_formed_witness :
  (length (_load_proxies (fun s => s) (Some "a:1,http://b:2,,c:3"%string))
   <= length (split_commas (replace_newlines "a:1,http://b:2,,c:3"%string)))%nat
  ∧ _load_proxies (fun s => s) None = [].
Proof.
  destruct (load_proxies_well_formed (fun s => s) (Some "a:1,http://b:2,,c:3"%string)) as (_ & H & _).
  destruct (load_proxies_well_formed (fun s => s) None) as (_ & _ & H').
  split; [by apply H | by apply H'].
Defined.

Lemma get_proxy_nonempty (pm : t) (p : option string)
    (rest : list (option string)) :
  proxy_queue pm = p :: rest ->
  get_proxy pm = (p, with_queue pm (rest ++ [p])).
Proof. intros Hq. unfold get_proxy, draw. by rewrite Hq. Qed.

Lemma draws_S (n : nat) (pm : t) :
  draws (S n) pm
  = ((get_proxy pm).1 :: (draws n (get_proxy pm).2).1,
     (draws n (get_proxy pm).2).2).
Proof.
  cbn [draws]. destruct (get_proxy pm) as [p pm1]. simpl.
  by destruct (draws n pm1).
Qed.

Lemma draws_cycle (l1 : list (option string)) :
  forall (l2 : list (option string)) (pm : t),
    draws (length l1) (with_queue pm (l1 ++ l2))
    = (l1, with_queue pm (l2 ++ l1)).
Proof.
  induction l1 as [|p l1 IH]; intros l2 pm.
  { simpl. by rewrite app_nil_r. }
  cbn [length]. rewrite draws_S.
  rewrite (get_proxy_nonempty _ p (l1 ++ l2)) by done.
  cbn [fst snd].
  assert (Hq : with_queue (with_queue pm ((p :: l1) ++ l2))
                 ((l1 ++ l2) ++ [p])
               = with_queue pm (l1 ++ (l2 ++ [p]))).
  { unfold with_queue. simpl. by rewrite <- app_assoc. }
  rewrite Hq, IH. cbn [fst snd]. by rewrite <- app_assoc.
Qed.

(** As many [get_proxy] calls as the queue is long return its entries
    once each, in queue order, and leave the manager as it was: the
    rotation is a round robin over an unchanging ring. *)
Theorem get_proxy_round_robin (pm : t) :
  draws (length (proxy_queue pm)) pm = (proxy_queue pm, pm).
Proof.
  pose proof (draws_cycle (proxy_queue pm) [] pm) as H.
  rewrite app_nil_r in H. simpl in H.
  replace (with_queue pm (proxy_queue pm)) with pm in H
    by by destruct pm.
  done.
Qed.

Lemma get_proxy_keeps_lists (pm : t) :
  proxies (get_proxy pm).2 = proxies pm
  ∧ failed_proxies (get_proxy pm).2 = failed_proxies pm.
Proof.
  unfold get_proxy, draw, _init_queue.
  by destruct (proxy_queue pm).
Qed.

(** [get_proxy] never leaves the queue empty and changes neither the
    proxy list nor the failed set.  On a drained queue it returns the
    local route and rebuilds the ring from the proxy list; the first
    call on a new manager returns the local route. *)
Theorem get_proxy_never_runs_dry (pm : t) :
  proxy_queue (get_proxy pm).2 ≠ []
  ∧ proxies (get_proxy pm).2 = proxies pm
  ∧ failed_proxies (get_proxy pm).2 = failed_proxies pm
  ∧ (proxy_queue pm = [] ->
     get_proxy pm
     = (None, with_queue pm (map Some (proxies pm) ++ [None])))
  ∧ (forall (strip : string -> string) (file : option string),
       (get_proxy (new strip file)).1 = None).
Proof.
  unfold get_proxy, draw, _init_queue.
  destruct (proxy_queue pm) as [|p rest] eqn:Hq; simpl.
  - split; [by destruct (map Some (proxies pm))|]. by repeat split.
  - split; [by destruct rest|]. by repeat split.
Qed.

Lemma get_proxy_never_runs_dry_witness :
  get_proxy (mk ["http://a:1"%string] [] ∅)
  = (None, mk ["http://a:1"%string] [Some "http://a:1"%string; None] ∅).
Proof.
  destruct (get_proxy_never_runs_dry (mk ["http://a:1"%string] [] ∅))
    as (_ & _ & _ & H & _).
  by apply H.
Defined.

Lemma get_proxy_failed_irrelevant (P : list string)
    (q : list (option string)) (F F' : gset string) :
  (get_proxy (mk P q F)).1 = (get_proxy (mk P q F')).1
  ∧ proxy_queue (get_proxy (mk P q F)).2
    = proxy_queue (get_proxy (mk P q F')).2
  ∧ proxies (get_proxy (mk P q F)).2 = P
  ∧ failed_proxies (get_proxy (mk P q F)).2 = F.
Proof.
  unfold get_proxy, draw, _init_queue. by destruct q.
Qed.

Lemma draws_failed_irrelevant (n : nat) :
  forall (P : list string) (q : list (option string))
         (F F' : gset string),
    (draws n (mk P q F)).1 = (draws n (mk P q F')).1
    ∧ proxy_queue (draws n (mk P q F)).2
      = proxy_queue (draws n (mk P q F')).2
    ∧ proxies (draws n (mk P q F)).2 = P
    ∧ failed_proxies (draws n (mk P q F)).2 = F.
Proof.
  induction n as [|n IH]; intros P q F F'; [done|].
  cbn [draws].
  destruct (get_proxy_failed_irrelevant P q F F') as (H1 & H2 & H3 & H4).
  destruct (get_proxy_failed_irrelevant P q F' F) as (_ & _ & H3' & H4').
  destruct (get_proxy (mk P q F)) as [p [P1 q1 F1]].
  destruct (get_proxy (mk P q F')) as [p' [P1' q1' F1']].
  simpl in *. subst.
  destruct (IH P q1' F F') as (I1 & I2 & I3 & I4).
  destruct (draws n (mk P q1' F)) as [ps pm2].
  destruct (draws n (mk P q1' F')) as [ps' pm2'].
  simpl in *. by subst.
Qed.

(** Marking a proxy as failed does not take it out of the rotation:
    the same proxies keep being drawn in the same order.  But from then
    on, however many draws follow, [get_proxy_config] gives no route
    for it, so its turns go over the local network. *)
Theorem failed_proxy_stays_in_rotation (pm : t) (p : string) (n : nat) :
  truthy_str p = true ->
  proxy_queue (mark_failed pm (Some p)) = proxy_queue pm
  ∧ (draws n (mark_failed pm (Some p))).1 = (draws n pm).1
  ∧ get_proxy_config (draws n (mark_failed pm (Some p))).2 (Some p)
    = None.
Proof.
  intros Ht. unfold mark_failed. rewrite Ht.
  destruct pm as [P q F]. cbn [proxies proxy_queue failed_proxies].
  destruct (draws_failed_irrelevant n P q ({[p]} ∪ F) F)
    as (H1 & _ & _ & H4).
  split; [done|]. split; [done|].
  unfold get_proxy_config. rewrite H4, Ht.
  rewrite bool_decide_eq_true_2; [done | set_solver].
Qed.

Lemma failed_proxy_stays_in_rotation_witness :
  (draws 4 (mark_failed Cases.pool (Some "http://a:1"%string))).1
  = (draws 4 Cases.pool).1
  ∧ get_proxy_config
      (draws 4 (mark_failed Cases.pool (Some "http://a:1"%string))).2
      (Some "http://a:1"%string)
    = None.
Proof.
  destruct (failed_proxy_stays_in_rotation Cases.pool
              "http://a:1"%string 4) as (_ & H1 & H2);
    [reflexivity|].
  by split.
Defined.

End ProxyMore.

(** ** get_app_details: attempts and the proxy pool *)

Section DetailsMore.

Import Details.

Variable e : env.

(** One unfolding of the attempt loop, with the recursive call folded. *)
Lemma attempts_loop_S (fuel attempt : nat) (pm : ProxyManager.t) :
  attempts_loop e (S fuel) attempt pm
  = if attempt_halted e attempt then (Worker.FetchNothing, pm, [])
    else
      let proxy := (ProxyManager.get_proxy pm).1 in
      let pm1 := (ProxyManager.get_proxy pm).2 in
      let proxy_config := ProxyManager.get_proxy_config pm1 proxy in
      let call := Fetch.make_request (network e attempt proxy_config) 1 in
      let entry := mk_request proxy proxy_config call.2 in
      let next := attempts_loop e fuel (S attempt) (blame pm1 proxy) in
      match call.1 with
      | Some InvalidJson => (next.1.1, next.1.2, entry :: next.2)
      | Some NotAnObject => (Worker.FetchRaises, pm1, [entry])
      | Some Unavailable => (Worker.FetchNothing, pm1, [entry])
      | Some (Data None) => (Worker.FetchNothing, pm1, [entry])
      | Some (Data (Some d)) => (Worker.FetchPayload d, pm1, [entry])
      | None => (next.1.1, next.1.2, entry :: next.2)
      end.
Proof.
  simpl. destruct (attempt_halted e attempt); [done|].
  destruct (ProxyManager.get_proxy pm) as [proxy pm1]. cbn [fst snd].
  destruct (Fetch.make_request _ 1) as [response tr]. cbn [fst snd].
  destruct response as [[| | |[d|]]|]; try done.
  all: by destruct (attempts_loop e fuel (S attempt) (blame pm1 proxy))
         as [[r pm2] log].
Qed.

Lemma blame_failed (pm : ProxyManager.t) (proxy : option string) :
  ProxyManager.proxies (blame pm proxy) = ProxyManager.proxies pm
  ∧ ProxyManager.proxy_queue (blame pm proxy)
    = ProxyManager.proxy_queue pm
  ∧ ProxyManager.failed_proxies pm
    ⊆ ProxyManager.failed_proxies (blame pm proxy)
  ∧ (forall p,
       p ∈ ProxyManager.failed_proxies (blame pm proxy) ->
       p ∈ ProxyManager.failed_proxies pm
       ∨ (truthy_str p = true ∧ proxy = Some p)).
Proof.
  unfold blame, ProxyManager.mark_failed.
  destruct proxy as [q|]; simpl; [|by auto].
  destruct (truthy_str q) eqn:Hq; simpl; [|by auto].
  split; [done|]. split; [done|]. split; [set_solver|].
  intros p [->%elem_of_singleton|Hp]%elem_of_union; auto.
Qed.

Lemma route_drawn (pm : ProxyManager.t) (proxy : option string)
    (p p' : string) :
  ProxyManager.get_proxy_config pm proxy = Some (p, p') ->
  proxy = Some p ∧ p' = p ∧ p ∉ ProxyManager.failed_proxies pm.
Proof.
  unfold ProxyManager.get_proxy_config. destruct proxy as [q|]; [|done].
  destruct (truthy_str q); simpl; [|done].
  destruct (bool_decide (q ∈ ProxyManager.failed_proxies pm)) eqn:Hq;
    simpl; [done|].
  intros [= <- <-]. by apply bool_decide_eq_false in Hq.
Qed.

(** What the loop keeps for any network and any flags. *)
Lemma attempts_loop_spec (fuel : nat) :
  forall (attempt : nat) (pm : ProxyManager.t),
    let out := attempts_loop e fuel attempt pm in
    (length out.2 <= fuel)%nat
    ∧ Forall (fun r =>
                (length (List.filter Fetch.is_get (trace r)) <= 1)%nat)
             out.2
    ∧ ProxyManager.proxies out.1.2 = ProxyManager.proxies pm
    ∧ ProxyManager.failed_proxies pm
      ⊆ ProxyManager.failed_proxies out.1.2
    ∧ (forall p,
         p ∈ ProxyManager.failed_proxies out.1.2 ->
         p ∈ ProxyManager.failed_proxies pm
         ∨ (truthy_str p = true ∧ exists r, r ∈ out.2 ∧ drawn r = Some p))
    ∧ (forall r p p',
         r ∈ out.2 -> route r = Some (p, p') ->
         drawn r = Some p ∧ p' = p
         ∧ p ∉ ProxyManager.failed_proxies pm).
Proof.
  induction fuel as [|fuel IH]; intros attempt pm out; subst out.
  { simpl. split; [lia|]. split; [done|]. split; [done|].
    split; [done|]. split; [auto|]. by intros r p p' ?%elem_of_nil. }
  rewrite attempts_loop_S.
  destruct (attempt_halted e attempt).
  { simpl. split; [lia|]. split; [done|]. split; [done|].
    split; [done|]. split; [auto|]. by intros r p p' ?%elem_of_nil. }
  cbv zeta.
  destruct (get_proxy_keeps_lists pm)
    as (Hprox & Hfail).
  set (proxy := (ProxyManager.get_proxy pm).1) in *.
  set (pm1 := (ProxyManager.get_proxy pm).2) in *.
  set (cfg := ProxyManager.get_proxy_config pm1 proxy).
  set (call := Fetch.make_request (network e attempt cfg) 1).
  set (entry := mk_request proxy cfg call.2).
  assert (Hget : (length (List.filter Fetch.is_get (trace entry)) <= 1)%nat).
  { subst entry call. simpl. unfold Fetch.make_request.
    apply (attempts_count (network e attempt cfg) 1 (Z.to_nat 1) 0). }
  assert (Hroute : forall r p p',
            r ∈ [entry] -> route r = Some (p, p') ->
            drawn r = Some p ∧ p' = p
            ∧ p ∉ ProxyManager.failed_proxies pm).
  { intros r p p' ->%list_elem_of_singleton Hr. subst entry. simpl in *.
    apply route_drawn in Hr as (Hd & -> & Hnf). by rewrite <- Hfail. }
  assert (Hstop : forall (res : Worker.details_result),
            let out := (res, pm1, [entry]) in
            (length out.2 <= S fuel)%nat
            ∧ Forall (fun r =>
                 (length (List.filter Fetch.is_get (trace r)) <= 1)%nat)
                out.2
            ∧ ProxyManager.proxies out.1.2 = ProxyManager.proxies pm
            ∧ ProxyManager.failed_proxies pm
              ⊆ ProxyManager.failed_proxies out.1.2
            ∧ (forall p,
                 p ∈ ProxyManager.failed_proxies out.1.2 ->
                 p ∈ ProxyManager.failed_proxies pm
                 ∨ (truthy_str p = true
                    ∧ exists r, r ∈ out.2 ∧ drawn r = Some p))
            ∧ (forall r p p',
                 r ∈ out.2 -> route r = Some (p, p') ->
                 drawn r = Some p ∧ p' = p
                 ∧ p ∉ ProxyManager.failed_proxies pm)).
  { intros res. simpl. split; [lia|].
    split; [by apply Forall_singleton|]. split; [done|].
    rewrite Hfail. split; [done|]. split; [auto | done]. }
  assert (Hnext :
            let next := attempts_loop e fuel (S attempt) (blame pm1 proxy) in
            let out := (next.1.1, next.1.2, entry :: next.2) in
            (length out.2 <= S fuel)%nat
            ∧ Forall (fun r =>
                 (length (List.filter Fetch.is_get (trace r)) <= 1)%nat)
                out.2
            ∧ ProxyManager.proxies out.1.2 = ProxyManager.proxies pm
            ∧ ProxyManager.failed_proxies pm
              ⊆ ProxyManager.failed_proxies out.1.2
            ∧ (forall p,
                 p ∈ ProxyManager.failed_proxies out.1.2 ->
                 p ∈ ProxyManager.failed_proxies pm
                 ∨ (truthy_str p = true
                    ∧ exists r, r ∈ out.2 ∧ drawn r = Some p))
            ∧ (forall r p p',
                 r ∈ out.2 -> route r = Some (p, p') ->
                 drawn r = Some p ∧ p' = p
                 ∧ p ∉ ProxyManager.failed_proxies pm)).
  { destruct (IH (S attempt) (blame pm1 proxy))
      as (I1 & I2 & I3 & I4 & I5 & I6).
    destruct (blame_failed pm1 proxy) as (B1 & _ & B3 & B4).
    cbn [fst snd]. split; [cbn [length]; lia|].
    split; [by apply Forall_cons|].
    split; [by rewrite I3, B1|].
    split; [rewrite <- Hfail; set_solver|].
    split.
    - intros p Hp. apply I5 in Hp as [Hp|(Ht & r & Hr & Hd)].
      + apply B4 in Hp as [Hp|[Ht Hd]].
        * left. by rewrite <- Hfail.
        * right. split; [done|]. exists entry.
          split; [apply elem_of_cons; by left | done].
      + right. split; [done|]. exists r.
        split; [apply elem_of_cons; by right | done].
    - intros r p p' [->|Hr]%elem_of_cons Hroute'.
      + apply (Hroute entry); [by apply list_elem_of_singleton | done].
      + destruct (I6 r p p' Hr Hroute') as (Hd & -> & Hnf).
        split; [done|]. split; [done|].
        rewrite <- Hfail. set_solver. }
  destruct call.1 as [[| | |[d|]]|]; auto.
Qed.

Lemma gets_bounded_by_requests (log : list request) :
  Forall (fun r => (length (List.filter Fetch.is_get (trace r)) <= 1)%nat)
         log ->
  (length (List.filter Fetch.is_get (concat (map trace log)))
   <= length log)%nat.
Proof.
  induction 1 as [|r log Hr _ IH]; [done|].
  simpl. rewrite List.filter_app, length_app. lia.
Qed.

(** [get_app_details] calls [make_request] at most 4 times and sends at
    most 4 requests in all; with a flag set at entry it does nothing
    and returns nothing. *)
Theorem get_app_details_bounded (pm : ProxyManager.t) :
  let out := get_app_details e pm in
  (length out.2 <= 4)%nat
  ∧ (length (List.filter Fetch.is_get (concat (map trace out.2))) <= 4)%nat
  ∧ (entry_halted e = true -> out = (Worker.FetchNothing, pm, [])).
Proof.
  unfold get_app_details. destruct (entry_halted e).
  { simpl. split; [lia|]. split; [lia | done]. }
  destruct (attempts_loop_spec 4 0 pm) as (H1 & H2 & _).
  split; [done|]. split; [|done].
  apply gets_bounded_by_requests in H2. lia.
Qed.

(** [get_app_details] leaves the proxy list alone and only ever adds to
    the failed set.  Every proxy it adds is a non-empty one that it drew
    for one of its requests; the local route is never marked.  A
    request is routed through a proxy only if that proxy was drawn for
    it and was not marked failed when the call started. *)
Theorem get_app_details_blames_only_drawn (pm : ProxyManager.t) :
  let out := get_app_details e pm in
  ProxyManager.proxies out.1.2 = ProxyManager.proxies pm
  ∧ ProxyManager.failed_proxies pm ⊆ ProxyManager.failed_proxies out.1.2
  ∧ (forall p,
       p ∈ ProxyManager.failed_proxies out.1.2 ->
       p ∈ ProxyManager.failed_proxies pm
       ∨ (truthy_str p = true ∧ exists r, r ∈ out.2 ∧ drawn r = Some p))
  ∧ (forall r p p',
       r ∈ out.2 -> route r = Some (p, p') ->
       drawn r = Some p ∧ p' = p ∧ p ∉ ProxyManager.failed_proxies pm).
Proof.
  unfold get_app_details. destruct (entry_halted e).
  { simpl. split; [done|]. split; [done|]. split; [auto|].
    by intros r p p' ?%elem_of_nil. }
  by destruct (attempts_loop_spec 4 0 pm) as (_ & _ & H3 & H4 & H5 & H6).
Qed.

Lemma blame_mk (pm : ProxyManager.t) (proxy : option string) :
  blame pm proxy
  = ProxyManager.mk (ProxyManager.proxies pm)
      (ProxyManager.proxy_queue pm)
      (blamed [proxy] ∪ ProxyManager.failed_proxies pm).
Proof.
  unfold blame, blamed, ProxyManager.mark_failed.
  destruct pm as [P q F]. destruct proxy as [p|]; simpl.
  - destruct (truthy_str p); simpl; f_equal; set_solver.
  - f_equal. set_solver.
Qed.

Lemma union_shuffle (X Y F : gset string) :
  X ∪ (Y ∪ F) = Y ∪ X ∪ F.
Proof. set_solver. Qed.

Lemma blamed_cons (proxy : option string) (l : list (option string)) :
  blamed (proxy :: l) = blamed [proxy] ∪ blamed l.
Proof.
  unfold blamed. simpl.
  destruct proxy as [p|]; [destruct (truthy_str p)|]; simpl; set_solver.
Qed.

(** On a network that never delivers, with no flag set, every attempt
    the fuel allows is made, over the proxies the rotation yields in
    order, and each of them is blamed. *)
Lemma attempts_loop_dead (fuel : nat) :
  (forall k, attempt_halted e k = false) ->
  (forall k cfg, (Fetch.make_request (network e k cfg) 1).1 = None) ->
  forall (attempt : nat) (pm : ProxyManager.t),
    let out := attempts_loop e fuel attempt pm in
    out.1.1 = Worker.FetchNothing
    ∧ map drawn out.2 = (ProxyManager.draws fuel pm).1
    ∧ ProxyManager.failed_proxies out.1.2
      = blamed (ProxyManager.draws fuel pm).1
        ∪ ProxyManager.failed_proxies pm.
Proof.
  intros Hhalt Hdead.
  induction fuel as [|fuel IH]; intros attempt pm out; subst out.
  { simpl. split; [done|]. split; [done|]. unfold blamed. simpl.
    set_solver. }
  rewrite attempts_loop_S, Hhalt. cbv zeta. rewrite Hdead.
  rewrite draws_S. cbn [fst snd].
  destruct (get_proxy_keeps_lists pm) as [Hprox Hfail].
  set (proxy := (ProxyManager.get_proxy pm).1) in *.
  set (pm1 := (ProxyManager.get_proxy pm).2) in *.
  destruct (IH (S attempt) (blame pm1 proxy)) as (I1 & I2 & I3).
  assert (D1 : (ProxyManager.draws fuel (blame pm1 proxy)).1
               = (ProxyManager.draws fuel pm1).1).
  { rewrite blame_mk.
    destruct (draws_failed_irrelevant fuel (ProxyManager.proxies pm1)
                (ProxyManager.proxy_queue pm1)
                (blamed [proxy] ∪ ProxyManager.failed_proxies pm1)
                (ProxyManager.failed_proxies pm1)) as (D & _).
    rewrite D. by destruct pm1. }
  assert (D2 : ProxyManager.failed_proxies (blame pm1 proxy)
               = blamed [proxy] ∪ ProxyManager.failed_proxies pm)
    by by rewrite blame_mk, <- Hfail.
  split; [done|]. split.
  - simpl. by rewrite I2, D1.
  - rewrite I3, D1, D2,
      (blamed_cons proxy (ProxyManager.draws fuel pm1).1).
    apply union_shuffle.
Qed.

(** When no request is ever delivered and no flag is set,
    [get_app_details] returns nothing after 4 attempts, made over the
    next 4 proxies of the rotation in order, and the failed set grows
    by exactly the non-empty proxies among them. *)
Theorem get_app_details_dead_network (pm : ProxyManager.t) :
  entry_halted e = false ->
  (forall k, attempt_halted e k = false) ->
  (forall k cfg, (Fetch.make_request (network e k cfg) 1).1 = None) ->
  let out := get_app_details e pm in
  out.1.1 = Worker.FetchNothing
  ∧ map drawn out.2 = (ProxyManager.draws 4 pm).1
  ∧ ProxyManager.failed_proxies out.1.2
    = blamed (ProxyManager.draws 4 pm).1
      ∪ ProxyManager.failed_proxies pm.
Proof.
  intros Hentry Hhalt Hdead. unfold get_app_details. rewrite Hentry.
  by apply attempts_loop_dead.
Qed.

End DetailsMore.

Lemma get_app_details_blames_only_drawn_witness :
  Details.drawn
    (Details.mk_request (Some "http://a:1"%string)
       (Some ("http://a:1", "http://a:1")%string) [Fetch.Get 0])
  = Some "http://a:1"%string.
Proof.
  destruct (get_app_details_blames_only_drawn Cases.dead_details
              Cases.pool) as (_ & _ & _ & H).
  apply (H _ "http://a:1"%string "http://a:1"%string).
  - vm_compute. apply elem_of_cons. right. apply elem_of_cons. by left.
  - reflexivity.
Defined.

Lemma get_app_details_dead_network_witness :
  map Details.drawn (Details.get_app_details Cases.dead_details Cases.pool).2
  = [None; Some "http://a:1"; Some "http://b:2"; None]%string.
Proof.
  destruct (get_app_details_dead_network Cases.dead_details Cases.pool)
    as (_ & H & _); [reflexivity | done | done |].
  rewrite H. reflexivity.
Defined.

(** ** get_existing_appids: which ids are reported *)

Section JsonlMore.

Import Jsonl.

Lemma accepted_nonzero (v : appid_value) (a : Z) :
  accepted v = Some a -> a ≠ 0.
Proof.
  destruct v as [|z|[|]|]; simpl; try done.
  - unfold truthy_int. destruct (Z.eqb_spec z 0); [done|].
    by intros [= <-].
  - by intros [= <-].
Qed.

Lemma reported_skip (l : line) (lines : list line) (a : Z) :
  l = Blank ∨ l = Malformed ∨ (exists v, l = Rec v ∧ accepted v ≠ Some a) ->
  reported (l :: lines) a <-> reported lines a.
Proof.
  intros Hl. split.
  - intros ([|i] & v & Hi & Hv & Hb).
    + simpl in Hi. injection Hi as ->.
      destruct Hl as [?|[?|(v' & [= <-] & Hne)]]; done.
    + exists i, v. split; [done|]. split; [done|].
      intros j Hj. apply (Hb (S j)). lia.
  - intros (i & v & Hi & Hv & Hb). exists (S i), v.
    split; [done|]. split; [done|].
    intros [|j] Hj; simpl.
    + destruct Hl as [->|[->|(v' & -> & _)]]; done.
    + apply Hb. lia.
Qed.

Lemma read_lines_reported (lines : list line) :
  forall (appids : gset Z) (a : Z),
    a ∈ read_lines lines appids <-> a ∈ appids ∨ reported lines a.
Proof.
  induction lines as [|l lines IH]; intros appids a.
  { simpl. split; [auto|]. intros [?|(i & v & Hi & _)]; done. }
  destruct l as [| | |v]; simpl.
  - rewrite IH, reported_skip; [done | by left].
  - rewrite IH, reported_skip; [done | by right; left].
  - split; [auto|]. intros [?|([|i] & v & Hi & Hv & Hb)]; [done|done|].
    by destruct (Hb 0%nat ltac:(lia)).
  - destruct (accepted v) as [a'|] eqn:Hv.
    + rewrite IH. destruct (decide (a = a')) as [->|Hne].
      * split; [|set_solver]. intros _. right. exists 0%nat, v.
        split; [done|]. split; [done|]. lia.
      * rewrite reported_skip; [set_solver|].
        right; right. exists v. split; [done|]. congruence.
    + rewrite IH, reported_skip; [done|].
      right; right. exists v. split; [done|]. congruence.
Qed.

End JsonlMore.

(** [get_existing_appids] reports an id exactly when some object line
    carries it as a non-zero integer (or as [True], which counts as 1)
    and no earlier line holds a JSON value that is not an object: blank
    and malformed lines are skipped, but a non-object line ends the
    reading.  0 is never reported, and a missing file gives the empty
    set. *)
Theorem get_existing_appids_reported (file : option (list Jsonl.line))
    (a : Z) :
  (a ∈ Jsonl.get_existing_appids file
   <-> exists (lines : list Jsonl.line) (i : nat) (v : Jsonl.appid_value),
         file = Some lines
         ∧ lines !! i = Some (Jsonl.Rec v)
         ∧ Jsonl.accepted v = Some a
         ∧ forall j : nat, (j < i)%nat ->
             lines !! j ≠ Some Jsonl.NotObject)
  ∧ (0 ∉ Jsonl.get_existing_appids file)
  ∧ (file = None -> Jsonl.get_existing_appids file = ∅).
Proof.
  assert (Hiff : forall b,
            b ∈ Jsonl.get_existing_appids file
            <-> exists lines i v,
                  file = Some lines
                  ∧ lines !! i = Some (Jsonl.Rec v)
                  ∧ Jsonl.accepted v = Some b
                  ∧ forall j : nat, (j < i)%nat ->
                      lines !! j ≠ Some Jsonl.NotObject).
  { intros b. destruct file as [lines|]; simpl.
    - rewrite read_lines_reported. split.
      + intros [?|(i & v & H)]; [set_solver|]. by exists lines, i, v.
      + intros (? & i & v & [= <-] & H). right. by exists i, v.
    - split; [set_solver|]. by intros (? & ? & ? & ? & _). }
  split; [apply Hiff|]. split; [|by intros ->].
  intros H. apply Hiff in H as (lines & i & v & _ & _ & Hv & _).
  by apply accepted_nonzero in Hv.
Qed.

Lemma get_existing_appids_reported_witness :
  10 ∈ Jsonl.get_existing_appids
         (Some [Jsonl.Malformed; Jsonl.Rec (Jsonl.AppidInt 10);
                Jsonl.NotObject; Jsonl.Rec (Jsonl.AppidInt 20)])
  ∧ 20 ∉ Jsonl.get_existing_appids
           (Some [Jsonl.Malformed; Jsonl.Rec (Jsonl.AppidInt 10);
                  Jsonl.NotObject; Jsonl.Rec (Jsonl.AppidInt 20)]).
Proof.
  split.
  - apply (get_existing_appids_reported
             (Some [Jsonl.Malformed; Jsonl.Rec (Jsonl.AppidInt 10);
                    Jsonl.NotObject; Jsonl.Rec (Jsonl.AppidInt 20)]) 10).
    exists [Jsonl.Malformed; Jsonl.Rec (Jsonl.AppidInt 10);
            Jsonl.NotObject; Jsonl.Rec (Jsonl.AppidInt 20)],
      1%nat, (Jsonl.AppidInt 10).
    split; [reflexivity|]. split; [reflexivity|]. split; [reflexivity|].
    intros [|j] Hj; [discriminate | lia].
  - intros H.
    destruct (get_existing_appids_reported
                (Some [Jsonl.Malformed; Jsonl.Rec (Jsonl.AppidInt 10);
                       Jsonl.NotObject; Jsonl.Rec (Jsonl.AppidInt 20)]) 20)
      as [Hiff _].
    apply Hiff in H.
    destruct H as (lines & i & v & Hf & Hi & Hv & Hb).
    injection Hf as <-.
    destruct i as [|[|[|[|i]]]]; simpl in Hi; try discriminate.
    + injection Hi as <-. discriminate.
    + by destruct (Hb 2%nat ltac:(lia)).
Defined.

(** ** get_all_game_list: attempts and pauses *)

Section CatalogueMore.

Import Catalogue.

Variable network : nat -> Fetch.net body.

Lemma list_loop_S (fuel attempt : nat) :
  list_loop network (S fuel) attempt
  = let call := Fetch.make_request (network attempt) 2 in
    let next := list_loop network fuel (S attempt) in
    match call.1 with
    | Some (Apps apps) => (Some apps, call.2)
    | Some NotAnObject => (None, call.2)
    | Some InvalidJson => (next.1, call.2 ++ pause attempt ++ next.2)
    | None => (next.1, call.2 ++ pause attempt ++ next.2)
    end.
Proof.
  simpl. destruct (Fetch.make_request (network attempt) 2)
    as [[[| |apps]|] tr]; cbn [fst snd]; try done.
  all: by destruct (list_loop network fuel (S attempt)).
Qed.

Lemma pause_no_get (attempt : nat) :
  List.filter Fetch.is_get (pause attempt) = [].
Proof. unfold pause. by destruct (attempt <? 2)%nat. Qed.

Lemma list_loop_spec (fuel : nat) :
  forall attempt : nat,
    (length (List.filter Fetch.is_get (list_loop network fuel attempt).2)
     <= 2 * fuel)%nat
    ∧ (forall apps,
         (list_loop network fuel attempt).1 = Some apps ->
         apps = []
         ∨ exists k : nat,
             (attempt <= k < attempt + fuel)%nat
             ∧ (Fetch.make_request (network k) 2).1 = Some (Apps apps)).
Proof.
  induction fuel as [|fuel IH]; intros attempt.
  { simpl. split; [lia|]. intros apps [= <-]. by left. }
  rewrite list_loop_S. cbv zeta.
  destruct (IH (S attempt)) as [Hn Hr].
  assert (Hc : (length (List.filter Fetch.is_get
                  (Fetch.make_request (network attempt) 2).2) <= 2)%nat).
  { unfold Fetch.make_request.
    apply (attempts_count (network attempt) 2 (Z.to_nat 2) 0). }
  assert (Hnext :
    (length (List.filter Fetch.is_get
       ((Fetch.make_request (network attempt) 2).2
        ++ pause attempt ++ (list_loop network fuel (S attempt)).2))
     <= 2 * S fuel)%nat
    ∧ (forall apps,
         (list_loop network fuel (S attempt)).1 = Some apps ->
         apps = []
         ∨ exists k : nat,
             (attempt <= k < attempt + S fuel)%nat
             ∧ (Fetch.make_request (network k) 2).1 = Some (Apps apps))).
  { split.
    - rewrite !List.filter_app, !length_app, pause_no_get. simpl. lia.
    - intros apps Ha. destruct (Hr apps Ha) as [?|(k & Hk & Hd)]; [by left|].
      right. exists k. split; [lia | done]. }
  destruct (Fetch.make_request (network attempt) 2).1
    as [[| |apps]|] eqn:Hcall; cbn [fst snd]; try done.
  - split; [lia | done].
  - split; [lia|]. intros ? [= <-]. right. exists attempt.
    split; [lia | done].
Qed.

(** [get_all_game_list] sends at most 6 requests.  A list it returns is
    empty or is the one some call within its 3 attempts decoded.  When
    a stop or goal flag is set throughout, it sends nothing, yet sleeps
    5 and then 10 seconds before it returns the empty list. *)
Theorem get_all_game_list_bounded :
  (length (List.filter Fetch.is_get (get_all_game_list network).2) <= 6)%nat
  ∧ (forall apps,
       (get_all_game_list network).1 = Some apps ->
       apps = []
       ∨ exists k : nat,
           (k < 3)%nat
           ∧ (Fetch.make_request (network k) 2).1 = Some (Apps apps))
  ∧ ((forall k, Fetch.halted (network k) 0 = true) ->
     get_all_game_list network
     = (Some [], [Fetch.Sleep (inject_Z 5); Fetch.Sleep (inject_Z 10)])).
Proof.
  unfold get_all_game_list.
  destruct (list_loop_spec 3 0) as [Hn Hr].
  split; [done|]. split.
  - intros apps Ha. destruct (Hr apps Ha) as [?|(k & Hk & Hd)]; [by left|].
    right. exists k. split; [lia | done].
  - intros Hh.
    assert (Hcall : forall k,
              Fetch.make_request (network k) 2 = (None, [])).
    { intros k. unfold Fetch.make_request. simpl. by rewrite Hh. }
    rewrite !list_loop_S. cbv zeta. rewrite !Hcall. reflexivity.
Qed.

End CatalogueMore.

Lemma get_all_game_list_bounded_witness :
  Catalogue.get_all_game_list
    (fun _ => Fetch.mk_net (fun _ => true) (fun _ => Fetch.RequestFailed)
                (fun _ => 0%Q))
  = (Some [], [Fetch.Sleep (inject_Z 5); Fetch.Sleep (inject_Z 10)]).
Proof.
  by apply (get_all_game_list_bounded
              (fun _ => Fetch.mk_net (fun _ => true)
                          (fun _ => Fetch.RequestFailed) (fun _ => 0%Q))).
Defined.

(** ** processar_um_jogo: what a call changes and what it leaves alone *)

Section WorkerMore.

Import Worker.

Variable e : env.
Variable max_reviews : Z.

(** Either the routine returns [False] before reserving anything, or it
    reserves the item's id and runs the rest on the reserved manager. *)
Lemma processar_um_jogo_cases (app : CursorManager.game) (w : world) :
  processar_um_jogo e max_reviews app w = (false, observe e 0 w)
  ∨ exists (appid : Z) (cm : CursorManager.t),
      CursorManager.appid app = Some appid
      ∧ truthy_int appid = true
      ∧ (stop_processing (observe e 0 w) || goal_reached (observe e 0 w))
        = false
      ∧ CursorManager.reserve_appid (cursor_manager w) appid = (true, cm)
      ∧ processar_um_jogo e max_reviews app w
        = after_reserve e max_reviews appid (with_cm (observe e 0 w) cm).
Proof.
  unfold processar_um_jogo. cbv zeta.
  destruct (stop_processing (observe e 0 w) || goal_reached (observe e 0 w))
    eqn:Hflags; [by left|].
  destruct (CursorManager.appid app) as [appid|]; [|by left].
  destruct (truthy_int appid) eqn:Ht; [|by left]. cbn [negb].
  change (cursor_manager (observe e 0 w)) with (cursor_manager w).
  destruct (CursorManager.reserve_appid (cursor_manager w) appid)
    as [[|] cm] eqn:Hres; [|by left].
  right. by exists appid, cm.
Qed.

Lemma reserve_granted_sets (cm cm' : CursorManager.t) (appid : Z) :
  CursorManager.reserve_appid cm appid = (true, cm') ->
  (appid ∉ CursorManager.reserved_appids cm)
  ∧ cm' = CursorManager.with_reserved cm
            ({[appid]} ∪ CursorManager.reserved_appids cm).
Proof.
  unfold CursorManager.reserve_appid.
  destruct (bool_decide (appid ∈ CursorManager.processed_appids cm));
    [done|].
  destruct (bool_decide (appid ∈ CursorManager.reserved_appids cm))
    eqn:Hr; [done|].
  destruct (bool_decide (appid ∈ CursorManager.failed_appids cm));
    [done|].
  apply bool_decide_eq_false in Hr. by intros [= <-].
Qed.

Lemma after_reserve_reserved (appid : Z) (w : world) :
  CursorManager.reserved_appids
    (cursor_manager (after_reserve e max_reviews appid w).2)
  = CursorManager.reserved_appids (cursor_manager w) ∖ {[appid]}.
Proof.
  pose proof (after_reserve_cursor_manager e max_reviews appid w) as H.
  simpl in H.
  destruct (after_reserve e max_reviews appid w).1.
  - by rewrite H.
  - by destruct H as [-> | ->].
Qed.

Lemma processar_reserved_unchanged (app : CursorManager.game)
    (w : world) :
  CursorManager.reserved_appids
    (cursor_manager (processar_um_jogo e max_reviews app w).2)
  = CursorManager.reserved_appids (cursor_manager w).
Proof.
  destruct (processar_um_jogo_cases app w)
    as [-> | (appid & cm & _ & _ & _ & Hres & ->)]; [done|].
  rewrite after_reserve_reserved. simpl.
  apply reserve_granted_sets in Hres as [Hout ->]. simpl.
  set_solver.
Qed.

(** A call of [processar_um_jogo] returns with [reserved_appids]
    exactly as it found it, whatever the item, the state and the
    outcome: what it reserves it also gives back. *)
Theorem processar_um_jogo_keeps_reserved_set
    (app : CursorManager.game) (w : world) :
  CursorManager.reserved_appids
    (cursor_manager (processar_um_jogo e max_reviews app w).2)
  = CursorManager.reserved_appids (cursor_manager w).
Proof. apply processar_reserved_unchanged. Qed.

(** A call touches no id but the item's own: every other id is in
    [processed_appids] and in [failed_appids] after the call exactly
    when it was before, and the two counters of the manager are left
    alone. *)
Theorem processar_um_jogo_leaves_other_ids
    (app : CursorManager.game) (w : world) (id : Z) :
  CursorManager.appid app ≠ Some id ->
  let cm' := cursor_manager (processar_um_jogo e max_reviews app w).2 in
  (id ∈ CursorManager.processed_appids cm'
   <-> id ∈ CursorManager.processed_appids (cursor_manager w))
  ∧ (id ∈ CursorManager.failed_appids cm'
     <-> id ∈ CursorManager.failed_appids (cursor_manager w))
  ∧ CursorManager.total_games_found cm'
    = CursorManager.total_games_found (cursor_manager w)
  ∧ CursorManager.last_batch_index cm'
    = CursorManager.last_batch_index (cursor_manager w).
Proof.
  intros Hne cm'. subst cm'.
  destruct (processar_um_jogo_cases app w)
    as [-> | (appid & cm & Happ & _ & _ & Hres & ->)]; [done|].
  assert (Hid : id ≠ appid) by congruence.
  apply reserve_granted_sets in Hres as [_ ->].
  pose proof (after_reserve_cursor_manager e max_reviews appid
                (with_cm (observe e 0 w)
                   (CursorManager.with_reserved (cursor_manager w)
                      ({[appid]}
                       ∪ CursorManager.reserved_appids (cursor_manager w)))))
    as H.
  simpl in H.
  destruct (after_reserve e max_reviews appid _).1.
  - rewrite H. simpl. set_solver.
  - destruct H as [-> | ->]; simpl; set_solver.
Qed.

End WorkerMore.

Lemma processar_um_jogo_leaves_other_ids_witness :
  8 ∈ CursorManager.failed_appids
        (Worker.cursor_manager
           (Worker.processar_um_jogo Cases.smooth 10 (Cases.game 7)
              (Worker.mk_world (CursorManager.mk ∅ ∅ {[8]} 0 0)
                 (ThreadSafeCounter.mk 0 (Some 3)) false false [])).2).
Proof.
  destruct (processar_um_jogo_leaves_other_ids Cases.smooth 10
              (Cases.game 7)
              (Worker.mk_world (CursorManager.mk ∅ ∅ {[8]} 0 0)
                 (ThreadSafeCounter.mk 0 (Some 3)) false false []) 8)
    as (_ & H & _); [discriminate|].
  apply H. simpl. set_solver.
Defined.

(** ** processar_um_jogo: the counter, the details file, skipped items *)

Section WorkerCounting.

Import Worker.

Variable e : env.
Variable max_reviews : Z.

(** What the [try] block does to the counter. *)
Lemma try_block_counter (appid : Z) (w : world) :
  match try_block e max_reviews appid w with
  | Returned _ w' =>
      games_counter w' = games_counter w
      ∨ games_counter w'
        = ThreadSafeCounter.run (games_counter w)
            [ThreadSafeCounter.Increment]
      ∨ games_counter w'
        = ThreadSafeCounter.run (games_counter w)
            [ThreadSafeCounter.Increment; ThreadSafeCounter.Decrement]
  | Raised w' =>
      games_counter w' = games_counter w
      ∨ games_counter w'
        = ThreadSafeCounter.run (games_counter w)
            [ThreadSafeCounter.Increment]
  end.
Proof.
  unfold try_block, ThreadSafeCounter.run. cbn [fold_left].
  cbn [ThreadSafeCounter.step].
  destruct (fetched e) as [| |d]; [by left | by left |].
  destruct (goal_reached (observe e 2 w)); [by left|].
  destruct (_is_valid_game d) as [[|]|]; [|by left|by left].
  change (games_counter (observe e 2 w)) with (games_counter w).
  destruct (ThreadSafeCounter.increment (games_counter w))
    as [[success v] c].
  destruct success; simpl.
  - destruct (goal_reached w || (signals e 2).2 || (signals e 3).2);
      [by right; left|].
    destruct (save_details_ok e); simpl; [|by right; right].
    destruct (0 <? max_reviews); simpl.
    + destruct (negb _ && reviews_raise e); [by right|].
      destruct (limit_reached _); by right; left.
    + destruct (limit_reached _); by right; left.
  - by right; left.
Qed.

(** The whole call applies to the counter one of four short sequences
    of its own operations. *)
Lemma processar_um_jogo_counter_ops (app : CursorManager.game)
    (w : world) :
  exists ops : list ThreadSafeCounter.op,
    games_counter (processar_um_jogo e max_reviews app w).2
    = ThreadSafeCounter.run (games_counter w) ops.
Proof.
  destruct (processar_um_jogo_cases e max_reviews app w)
    as [-> | (appid & cm & _ & _ & _ & _ & ->)]; [by exists []|].
  unfold after_reserve. destruct (limit_reached _); [by exists []|].
  pose proof (try_block_counter appid (with_cm (observe e 0 w) cm)) as H.
  destruct (try_block e max_reviews appid (with_cm (observe e 0 w) cm))
    as [result w'|w']; cbn [snd].
  - destruct H as [->|[->| ->]];
      [by exists [] | by eexists | by eexists].
  - change (games_counter (handler appid w'))
      with (ThreadSafeCounter.run (games_counter w')
              [ThreadSafeCounter.Decrement]).
    destruct H as [-> | ->].
    + by exists [ThreadSafeCounter.Decrement].
    + by exists [ThreadSafeCounter.Increment; ThreadSafeCounter.Decrement].
Qed.

Lemma processar_counter_bounded (app : CursorManager.game) (w : world)
    (M : Z) :
  ThreadSafeCounter.max_value (games_counter w) = Some M ->
  1 <= M ->
  0 <= ThreadSafeCounter.value (games_counter w) <= M ->
  0 <= ThreadSafeCounter.value
         (games_counter (processar_um_jogo e max_reviews app w).2) <= M
  ∧ ThreadSafeCounter.max_value
      (games_counter (processar_um_jogo e max_reviews app w).2)
    = Some M.
Proof.
  intros Hm HM Hv.
  destruct (processar_um_jogo_counter_ops app w) as [ops ->].
  split; [by apply run_in_bounds|]. by rewrite run_max_value.
Qed.

(** A call keeps a bounded counter within its bounds: with a maximum
    [M >= 1] and a value between 0 and [M] before, the value is between
    0 and [M] after, and the maximum is the same. *)
Theorem processar_um_jogo_counter_in_bounds
    (app : CursorManager.game) (w : world) (M : Z) :
  ThreadSafeCounter.max_value (games_counter w) = Some M ->
  1 <= M ->
  0 <= ThreadSafeCounter.value (games_counter w) <= M ->
  let c' := games_counter (processar_um_jogo e max_reviews app w).2 in
  0 <= ThreadSafeCounter.value c' <= M
  ∧ ThreadSafeCounter.max_value c' = Some M.
Proof. apply processar_counter_bounded. Qed.

Lemma observe_quiet (k : nat) (w : world) :
  (forall k, signals e k = (false, false)) -> observe e k w = w.
Proof.
  intros Hq. unfold observe. rewrite Hq. simpl.
  rewrite !orb_false_r. by destruct w.
Qed.

(** Without signals and without exceptions, the counter and the
    details file move together: a call that returns [True] has
    appended the item's id to the file, added one to the counter and
    put the id in [processed_appids]; a call that returns [False] has
    changed neither the file nor the value of the counter. *)
Theorem processar_um_jogo_counts_what_it_saves
    (app : CursorManager.game) (w : world) :
  (forall k, signals e k = (false, false)) ->
  fetched e ≠ FetchRaises ->
  (forall d, fetched e = FetchPayload d -> _is_valid_game d ≠ None) ->
  reviews_raise e = false ->
  0 <= ThreadSafeCounter.value (games_counter w) ->
  let out := processar_um_jogo e max_reviews app w in
  if out.1
  then exists appid : Z,
         CursorManager.appid app = Some appid
         ∧ details_file (out.2) = details_file w ++ [appid]
         ∧ ThreadSafeCounter.value (games_counter (out.2))
           = ThreadSafeCounter.value (games_counter w) + 1
         ∧ appid ∈ CursorManager.processed_appids (cursor_manager (out.2))
  else details_file (out.2) = details_file w
       ∧ ThreadSafeCounter.value (games_counter (out.2))
         = ThreadSafeCounter.value (games_counter w).
Proof.
  intros Hq Hfetch Hvalid Hrev Hv out. subst out.
  assert (Hobs : forall k w0, observe e k w0 = w0)
    by (intros; by apply observe_quiet).
  destruct (processar_um_jogo_cases e max_reviews app w)
    as [-> | (appid & cm & Happ & _ & _ & _ & ->)].
  { cbn [fst snd]. by rewrite Hobs. }
  rewrite Hobs.
  unfold after_reserve.
  destruct (limit_reached (with_cm w cm)); [cbn [fst snd]; by rewrite Hobs|].
  unfold try_block. rewrite ?Hobs.
  destruct (fetched e) as [| |d] eqn:Hf; [done | done |].
  cbn [goal_reached with_cm].
  destruct (goal_reached w) eqn:Hg; [done|].
  specialize (Hvalid d eq_refl).
  destruct (_is_valid_game d) as [[|]|]; [|done|done].
  cbn [games_counter with_cm].
  unfold ThreadSafeCounter.increment.
  destruct (ThreadSafeCounter.truthy
              (ThreadSafeCounter.limit_expr (games_counter w))).
  { cbn. by rewrite ?Hobs. }
  rewrite !Hobs. cbn [negb orb goal_reached with_counter with_cm].
  rewrite Hg.
  destruct (save_details_ok e); cbn [negb].
  - rewrite Hrev, andb_false_r.
    destruct (0 <? max_reviews);
      destruct (limit_reached _); cbn [fst snd];
      exists appid; simpl; (split; [done|]); (split; [done|]);
      (split; [done | set_solver]).
  - cbn. split; [done | lia].
Qed.

(** An item whose id is already processed, reserved or failed is
    skipped: the call returns [False] and changes neither the manager,
    nor the counter, nor the details file. *)
Lemma processar_um_jogo_skips (app : CursorManager.game) (w : world)
    (appid : Z) :
  CursorManager.appid app = Some appid ->
  appid ∈ CursorManager.processed_appids (cursor_manager w)
          ∪ CursorManager.reserved_appids (cursor_manager w)
          ∪ CursorManager.failed_appids (cursor_manager w) ->
  processar_um_jogo e max_reviews app w = (false, observe e 0 w).
Proof.
  intros Happ Hin.
  destruct (processar_um_jogo_cases e max_reviews app w)
    as [-> | (a & cm & Happ' & _ & _ & Hres & _)]; [done|].
  rewrite Happ in Happ'. injection Happ' as <-.
  by rewrite reserve_appid_refuses in Hres.
Qed.

(** An entry with a failed id is handed out by [get_remaining_games],
    and then skipped by [processar_um_jogo]: the call returns [False]
    and leaves the manager, the counter and the details file as they
    were, so the id is not retried while it stays in [failed_appids]. *)
Theorem failed_item_offered_then_skipped
    (all_games : list CursorManager.game) (app : CursorManager.game)
    (w : world) :
  app ∈ all_games ->
  CursorManager.offered (cursor_manager w) app ->
  CursorManager.py_in (CursorManager.appid app)
    (CursorManager.failed_appids (cursor_manager w)) ->
  let out := processar_um_jogo e max_reviews app w in
  app ∈ CursorManager.get_remaining_games (cursor_manager w) all_games
  ∧ out.1 = false
  ∧ cursor_manager (out.2) = cursor_manager w
  ∧ games_counter (out.2) = games_counter w
  ∧ details_file (out.2) = details_file w.
Proof.
  intros Hin Hoff Hfailed out. subst out. split.
  - unfold CursorManager.get_remaining_games. cbv zeta.
    rewrite remaining_loop_filter. by apply list_elem_of_filter.
  - destruct (CursorManager.appid app) as [appid|] eqn:Happ; [|done].
    rewrite (processar_um_jogo_skips app w appid Happ); [done|].
    simpl in Hfailed. set_solver.
Qed.

(** When another thread sets the goal flag between the increment and
    the test that follows it, the item is marked failed and nothing is
    written, but the counter keeps the increment. *)
Theorem late_goal_keeps_increment (app : CursorManager.game) (w : world)
    (appid : Z) (cm : CursorManager.t) (d : details) :
  stop_processing w = false -> goal_reached w = false ->
  signals e 0 = (false, false) ->
  (signals e 2).2 = false -> (signals e 3).2 = true ->
  CursorManager.appid app = Some appid -> truthy_int appid = true ->
  CursorManager.reserve_appid (cursor_manager w) appid = (true, cm) ->
  (ThreadSafeCounter.increment (games_counter w)).1.1 = true ->
  fetched e = FetchPayload d -> _is_valid_game d = Some true ->
  let out := processar_um_jogo e max_reviews app w in
  out.1 = false
  ∧ appid ∈ CursorManager.failed_appids (cursor_manager (out.2))
  ∧ ThreadSafeCounter.value (games_counter (out.2))
    = ThreadSafeCounter.value (games_counter w) + 1
  ∧ details_file (out.2) = details_file w.
Proof.
  intros Hs Hg H0 H2 H3 Happ Ht Hres Hinc Hf Hv out. subst out.
  unfold processar_um_jogo. cbv zeta.
  change (cursor_manager (observe e 0 w)) with (cursor_manager w).
  assert (Hflags : (stop_processing (observe e 0 w)
                    || goal_reached (observe e 0 w)) = false).
  { simpl. by rewrite Hs, Hg, H0. }
  rewrite Hflags, Happ, Ht, Hres. cbn [negb].
  unfold after_reserve.
  assert (Hlim : limit_reached (with_cm (observe e 0 w) cm) = false).
  { unfold limit_reached, ThreadSafeCounter.reached_limit. simpl.
    unfold ThreadSafeCounter.increment in Hinc.
    by destruct (ThreadSafeCounter.truthy _). }
  rewrite Hlim. unfold try_block. rewrite Hf, Hv.
  cbn [goal_reached observe with_cm]. rewrite Hg, H0, H2. cbn [orb snd].
  assert (Hlimit : ThreadSafeCounter.truthy
                     (ThreadSafeCounter.limit_expr (games_counter w))
                   = false).
  { unfold ThreadSafeCounter.increment in Hinc.
    by destruct (ThreadSafeCounter.truthy _). }
  unfold ThreadSafeCounter.increment.
  change (games_counter (observe e 2 (with_cm (observe e 0 w) cm)))
    with (games_counter w).
  rewrite Hlimit. cbn. rewrite ?Hg, ?H0, ?H2, ?H3. cbn.
  split; [done|]. split; [set_solver | done].
Qed.

End WorkerCounting.

Lemma processar_um_jogo_counter_in_bounds_witness :
  0 <= ThreadSafeCounter.value
         (Worker.games_counter
            (Worker.processar_um_jogo Cases.smooth 10 (Cases.game 7)
               Scenario.two_of_three).2) <= 3.
Proof.
  apply (processar_um_jogo_counter_in_bounds Cases.smooth 10
           (Cases.game 7) Scenario.two_of_three 3).
  - reflexivity.
  - lia.
  - simpl. lia.
Defined.

Lemma processar_um_jogo_counts_what_it_saves_witness :
  Worker.details_file
    (Worker.processar_um_jogo Scenario.validation_raises 10 (Cases.game 7)
       (Worker.mk_world (CursorManager.mk {[7]} ∅ ∅ 1 0)
          (ThreadSafeCounter.mk 1 (Some 3)) false false [7])).2
  = [7]
  ∧ (if (Worker.processar_um_jogo Cases.smooth 10 (Cases.game 7)
           Scenario.two_of_three).1
     then
       exists appid : Z,
         CursorManager.appid (Cases.game 7) = Some appid
         ∧ Worker.details_file
             (Worker.processar_um_jogo Cases.smooth 10 (Cases.game 7)
                Scenario.two_of_three).2
           = Worker.details_file Scenario.two_of_three ++ [appid]
         ∧ ThreadSafeCounter.value
             (Worker.games_counter
                (Worker.processar_um_jogo Cases.smooth 10 (Cases.game 7)
                   Scenario.two_of_three).2)
           = ThreadSafeCounter.value
               (Worker.games_counter Scenario.two_of_three) + 1
         ∧ appid
           ∈ CursorManager.processed_appids
               (Worker.cursor_manager
                  (Worker.processar_um_jogo Cases.smooth 10 (Cases.game 7)
                     Scenario.two_of_three).2)
     else
       Worker.details_file
         (Worker.processar_um_jogo Cases.smooth 10 (Cases.game 7)
            Scenario.two_of_three).2
       = Worker.details_file Scenario.two_of_three
       ∧ ThreadSafeCounter.value
           (Worker.games_counter
              (Worker.processar_um_jogo Cases.smooth 10 (Cases.game 7)
                 Scenario.two_of_three).2)
         = ThreadSafeCounter.value
             (Worker.games_counter Scenario.two_of_three)).
Proof.
  split; [reflexivity|].
  apply (processar_um_jogo_counts_what_it_saves Cases.smooth 10
           (Cases.game 7) Scenario.two_of_three).
  - reflexivity.
  - discriminate.
  - intros d [= <-]. discriminate.
  - reflexivity.
  - simpl. lia.
Defined.

Lemma failed_item_offered_then_skipped_witness :
  (Worker.processar_um_jogo Cases.smooth 10 (Cases.game 5)
     (Worker.mk_world (CursorManager.mk ∅ ∅ {[5]} 0 0)
        (ThreadSafeCounter.mk 0 (Some 3)) false false [])).1
  = false.
Proof.
  destruct (failed_item_offered_then_skipped Cases.smooth 10
              [Cases.game 5] (Cases.game 5)
              (Worker.mk_world (CursorManager.mk ∅ ∅ {[5]} 0 0)
                 (ThreadSafeCounter.mk 0 (Some 3)) false false []))
    as (_ & H & _).
  - set_solver.
  - unfold CursorManager.offered. simpl. set_solver.
  - simpl. set_solver.
  - exact H.
Defined.

Lemma late_goal_keeps_increment_witness :
  ThreadSafeCounter.value
    (Worker.games_counter
       (Worker.processar_um_jogo Cases.late_goal 10 (Cases.game 7)
          Scenario.two_of_three).2)
  = 3
  ∧ Worker.details_file
      (Worker.processar_um_jogo Cases.late_goal 10 (Cases.game 7)
         Scenario.two_of_three).2
    = [].
Proof.
  destruct (late_goal_keeps_increment Cases.late_goal 10 (Cases.game 7)
              Scenario.two_of_three 7
              (CursorManager.with_reserved CursorManager.init
                 ({[7]} ∪ ∅))
              (Worker.mk_details (Some "game"%string)
                 (Some "Portal"%string) Worker.CategoriesMissing))
    as (_ & _ & H1 & H2); try reflexivity.
  split; [exact H1 | exact H2].
Defined.

(** ** main: start-up *)

Section StartupMore.

Import Main.

(** When [main] gets as far as building the counter, every entry it is
    about to process comes from the catalogue, carries a truthy appid,
    and is neither among the ids already in the details file nor among
    the processed or reserved ids of the checkpoint that was loaded
    (none is loaded after [--reset_cursor]). *)
Theorem startup_never_offers_saved_details (a : args)
    (d : Checkpoint.disk) (all_games : list CursorManager.game)
    (existing_details : gset Z) (cm : CursorManager.t)
    (remaining_games : list CursorManager.game)
    (games_counter : ThreadSafeCounter.t) :
  startup a d all_games existing_details
  = Ready cm remaining_games games_counter ->
  let loaded :=
    Checkpoint.load_state (if reset_cursor a then reset d else d) in
  remaining_games ≠ []
  ∧ CursorManager.processed_appids cm
    = existing_details ∪ CursorManager.processed_appids loaded
  ∧ (reset_cursor a = true -> loaded = CursorManager.init)
  ∧ forall g : CursorManager.game,
      g ∈ remaining_games ->
      g ∈ all_games
      ∧ truthy_opt_int (CursorManager.appid g) = true
      ∧ ¬ CursorManager.py_in (CursorManager.appid g) existing_details
      ∧ ¬ CursorManager.py_in (CursorManager.appid g)
            (CursorManager.processed_appids loaded)
      ∧ ¬ CursorManager.py_in (CursorManager.appid g)
            (CursorManager.reserved_appids loaded).
Proof.
  unfold startup. cbv zeta.
  set (loaded := Checkpoint.load_state
                   (if reset_cursor a then reset d else d)).
  destruct (Fetch.is_nil all_games); [done|].
  set (cm0 := CursorManager.mk _ _ _ _ _).
  destruct (Fetch.is_nil (CursorManager.get_remaining_games cm0 all_games))
    eqn:Hnil; [done|].
  destruct (_ <=? 0); [done|].
  intros [= <- <- <-].
  split; [by destruct (CursorManager.get_remaining_games cm0 all_games)|].
  split; [done|]. split.
  { intros Hr. subst loaded. by rewrite Hr. }
  intros g Hg. unfold CursorManager.get_remaining_games in Hg.
  cbv zeta in Hg. rewrite remaining_loop_filter in Hg.
  apply list_elem_of_filter in Hg as [(Ht & Hp & Hr) Hin].
  split; [done|]. split; [done|].
  subst cm0. simpl in Hp, Hr.
  destruct (CursorManager.appid g) as [x|]; simpl in *; [|done].
  set_solver.
Qed.

Lemma startup_never_offers_saved_details_witness :
  Cases.game 3 ∈ [Cases.game 1; Cases.game 2; Cases.game 3]
  ∧ truthy_opt_int (CursorManager.appid (Cases.game 3)) = true.
Proof.
  assert (Hs : exists cm c,
            startup (mk_args 10 10 8 25 100 false)
              (Checkpoint.mk_disk
                 (Some (Checkpoint.snapshot
                          (CursorManager.mk {[2]} ∅ ∅ 1 0) 10)) None None)
              [Cases.game 1; Cases.game 2; Cases.game 3] {[1]}
            = Ready cm [Cases.game 3] c).
  { eexists _, _. vm_compute. reflexivity. }
  destruct Hs as (cm & c & Hs).
  destruct (startup_never_offers_saved_details _ _ _ _ _ _ _ Hs)
    as (_ & _ & _ & H).
  destruct (H (Cases.game 3)) as (H1 & H2 & _).
  - apply list_elem_of_singleton. reflexivity.
  - split; [exact H1 | exact H2].
Defined.

(** The counter [main] builds from validated arguments starts at the
    number of ids found in the details file, strictly below its
    maximum, which is at least 1; it has not reached its limit, and no
    sequence of [increment] and [decrement] calls takes it below 0 or
    above the maximum. *)
Theorem startup_counter_well_formed (a : args) (d : Checkpoint.disk)
    (all_games : list CursorManager.game) (existing_details : gset Z)
    (cm : CursorManager.t) (remaining_games : list CursorManager.game)
    (games_counter : ThreadSafeCounter.t) :
  startup (validate a) d all_games existing_details
  = Ready cm remaining_games games_counter ->
  let M := Z.max 1 (max_games a) in
  games_counter
  = ThreadSafeCounter.mk (Z.of_nat (size existing_details)) (Some M)
  ∧ 0 <= ThreadSafeCounter.value games_counter < M
  ∧ ThreadSafeCounter.truthy
      (ThreadSafeCounter.reached_limit games_counter) = false
  ∧ forall ops : list ThreadSafeCounter.op,
      0 <= ThreadSafeCounter.value
             (ThreadSafeCounter.run games_counter ops) <= M.
Proof.
  unfold startup. cbv zeta.
  destruct (Fetch.is_nil all_games); [done|].
  destruct (Fetch.is_nil _); [done|].
  cbn [max_games validate CursorManager.total_games_found].
  destruct (Z.leb_spec
              (Z.max 0 (Z.max 1 (max_games a)
                        - Z.of_nat (size existing_details))) 0)
    as [Hle|Hgt]; [done|].
  intros [= _ _ <-].
  split; [done|]. simpl. split; [lia|]. split.
  - unfold ThreadSafeCounter.reached_limit, ThreadSafeCounter.limit_expr.
    simpl. unfold truthy_int.
    destruct (Z.eqb_spec (Z.max 1 (max_games a)) 0); [lia|]. simpl.
    apply Z.leb_gt. lia.
  - intros ops. apply run_in_bounds; simpl; [done | lia | lia].
Qed.

Lemma startup_counter_well_formed_witness :
  0 <= ThreadSafeCounter.value
         (ThreadSafeCounter.run (ThreadSafeCounter.mk 1 (Some 10))
            [ThreadSafeCounter.Increment; ThreadSafeCounter.Decrement])
    <= 10.
Proof.
  assert (Hs : exists cm remaining_games,
            startup (validate (mk_args 10 10 8 25 100 false))
              (Checkpoint.mk_disk None None None)
              [Cases.game 1; Cases.game 2; Cases.game 3] {[1]}
            = Ready cm remaining_games
                (ThreadSafeCounter.mk 1 (Some 10))).
  { eexists _, _. vm_compute. reflexivity. }
  destruct Hs as (cm & remaining_games & Hs).
  destruct (startup_counter_well_formed _ _ _ _ _ _ _ Hs)
    as (_ & _ & _ & H).
  apply (H [ThreadSafeCounter.Increment; ThreadSafeCounter.Decrement]).
Defined.

End StartupMore.

(** ** main: the sequential loop *)

Section SequentialMore.

Import Main.

Variable a : args.

Lemma sequential_reserved (items : list (CursorManager.game * Worker.env)) :
  forall st : progress,
    CursorManager.reserved_appids
      (Worker.cursor_manager (shared (sequential a items st)))
    = CursorManager.reserved_appids (Worker.cursor_manager (shared st))
    ∧ forall s : CursorManager.t,
        s ∈ saved (sequential a items st) ->
        s ∈ saved st
        ∨ CursorManager.reserved_appids s
          = CursorManager.reserved_appids
              (Worker.cursor_manager (shared st)).
Proof.
  induction items as [|[app e] rest IH]; intros st; [by auto|].
  cbn [sequential].
  destruct (_ || _); [by auto|].
  destruct (Worker.limit_reached _); [by auto|].
  pose proof (processar_reserved_unchanged e (max_reviews a) app
                (Worker.observe e 7 (shared st))) as Hp.
  change (Worker.cursor_manager (Worker.observe e 7 (shared st)))
    with (Worker.cursor_manager (shared st)) in Hp.
  destruct (checkpoint_interval a <=? checkpoint_counter st + 1).
  - destruct (IH (mk_progress
                    (Worker.processar_um_jogo e (max_reviews a) app
                       (Worker.observe e 7 (shared st))).2
                    0 (processed_count st + 1)
                    (saved st
                     ++ [Worker.cursor_manager
                           (Worker.processar_um_jogo e (max_reviews a) app
                              (Worker.observe e 7 (shared st))).2])))
      as [I1 I2].
    cbn [shared saved] in I1, I2. rewrite Hp in I1, I2.
    split; [done|]. intros s Hs.
    destruct (I2 s Hs) as [Hin|Heq]; [|by right].
    apply elem_of_app in Hin as [Hin|Hin]; [by left|].
    apply list_elem_of_singleton in Hin as ->. by right.
  - destruct (IH (mk_progress
                    (Worker.processar_um_jogo e (max_reviews a) app
                       (Worker.observe e 7 (shared st))).2
                    (checkpoint_counter st + 1) (processed_count st + 1)
                    (saved st)))
      as [I1 I2].
    cbn [shared saved] in I1, I2. rewrite Hp in I1, I2. by split.
Qed.

(** The sequential mode never writes a reservation of its own to a
    checkpoint: every manager state it saves, the periodic ones and the
    two final ones, has the [reserved_appids] the run started with,
    and so has the manager at the end.  The last state saved is the
    final one, and both events are set on return. *)
Theorem run_sequential_keeps_reservations
    (items : list (CursorManager.game * Worker.env)) (w : Worker.world) :
  let st := run_sequential a items w in
  CursorManager.reserved_appids (Worker.cursor_manager (shared st))
  = CursorManager.reserved_appids (Worker.cursor_manager w)
  ∧ Forall (fun s => CursorManager.reserved_appids s
                     = CursorManager.reserved_appids
                         (Worker.cursor_manager w))
           (saved st)
  ∧ last (saved st) = Some (Worker.cursor_manager (shared st))
  ∧ Worker.stop_processing (shared st) = true
  ∧ Worker.goal_reached (shared st) = true.
Proof.
  unfold run_sequential. cbv zeta. cbn [shared saved].
  destruct (sequential_reserved items (mk_progress w 0 0 [])) as [I1 I2].
  cbn [shared saved] in I1, I2.
  split; [done|]. split.
  - apply Forall_app. split.
    + apply Forall_forall. intros s Hs.
      destruct (I2 s Hs) as [Hin|Heq]; [|done].
      by apply elem_of_nil in Hin.
    + apply Forall_cons. split; [done|].
      apply Forall_cons. split; [done | constructor].
  - split; [|done].
    set (cm := Worker.cursor_manager
                 (shared (sequential a items (mk_progress w 0 0 [])))).
    change [cm; cm] with ([cm] ++ [cm]).
    rewrite app_assoc. apply last_snoc.
Qed.

Lemma sequential_counter (items : list (CursorManager.game * Worker.env))
    (M : Z) :
  1 <= M ->
  forall st : progress,
    ThreadSafeCounter.max_value (Worker.games_counter (shared st))
    = Some M ->
    0 <= ThreadSafeCounter.value (Worker.games_counter (shared st)) <= M ->
    ThreadSafeCounter.max_value
      (Worker.games_counter (shared (sequential a items st)))
    = Some M
    ∧ 0 <= ThreadSafeCounter.value
             (Worker.games_counter (shared (sequential a items st)))
        <= M.
Proof.
  intros HM.
  induction items as [|[app e] rest IH]; intros st Hm Hv; [done|].
  cbn [sequential].
  destruct (_ || _); [done|].
  destruct (Worker.limit_reached _); [done|].
  destruct (processar_counter_bounded e (max_reviews a) app
              (Worker.observe e 7 (shared st)) M Hm HM Hv) as [Hv' Hm'].
  destruct (checkpoint_interval a <=? checkpoint_counter st + 1);
    by apply IH.
Qed.

(** Through the whole sequential mode the counter keeps its maximum
    and stays between 0 and the maximum: the loop never counts more
    games than the goal. *)
Theorem run_sequential_counter_in_bounds
    (items : list (CursorManager.game * Worker.env)) (w : Worker.world)
    (M : Z) :
  1 <= M ->
  ThreadSafeCounter.max_value (Worker.games_counter w) = Some M ->
  0 <= ThreadSafeCounter.value (Worker.games_counter w) <= M ->
  let c := Worker.games_counter (shared (run_sequential a items w)) in
  ThreadSafeCounter.max_value c = Some M
  ∧ 0 <= ThreadSafeCounter.value c <= M.
Proof.
  intros HM Hm Hv. unfold run_sequential. cbv zeta. cbn [shared].
  cbn [Worker.games_counter].
  by apply (sequential_counter items M HM (mk_progress w 0 0 [])).
Qed.

Lemma sequential_cadence (items : list (CursorManager.game * Worker.env)) :
  1 <= checkpoint_interval a ->
  forall st : progress,
    0 <= checkpoint_counter st < checkpoint_interval a ->
    let st' := sequential a items st in
    0 <= checkpoint_counter st' < checkpoint_interval a
    ∧ processed_count st' - processed_count st
      = (Z.of_nat (length (saved st')) - Z.of_nat (length (saved st)))
        * checkpoint_interval a
        + checkpoint_counter st' - checkpoint_counter st
    ∧ 0 <= processed_count st' - processed_count st
        <= Z.of_nat (length items).
Proof.
  intros HI.
  induction items as [|[app e] rest IH]; intros st Hc st'; subst st'.
  { simpl. lia. }
  cbn [sequential].
  destruct (_ || _); [cbn [length]; simpl; lia|].
  destruct (Worker.limit_reached _); [cbn [length]; simpl; lia|].
  destruct (Z.leb_spec (checkpoint_interval a) (checkpoint_counter st + 1))
    as [Hle|Hgt].
  - match goal with
    | |- context [sequential a rest ?s] =>
        destruct (IH s) as (I1 & I2 & I3); [simpl; lia|]
    end.
    cbn [checkpoint_counter processed_count saved] in I2, I3.
    rewrite length_app in I2. cbn [length] in *.
    split; [done|]. split; [nia | lia].
  - match goal with
    | |- context [sequential a rest ?s] =>
        destruct (IH s) as (I1 & I2 & I3); [simpl; lia|]
    end.
    cbn [checkpoint_counter processed_count saved] in I2, I3.
    cbn [length]. split; [done|]. split; lia.
Qed.

(** With a checkpoint interval of at least 1, the loop saves the
    manager once every [checkpoint_interval] items: when it ends, the
    number of items it went through is the number of periodic saves
    times the interval plus a remainder smaller than the interval, and
    is at most the number of items it was given. *)
Theorem sequential_checkpoint_cadence
    (items : list (CursorManager.game * Worker.env)) (w : Worker.world) :
  1 <= checkpoint_interval a ->
  let st := sequential a items (mk_progress w 0 0 []) in
  processed_count st
  = Z.of_nat (length (saved st)) * checkpoint_interval a
    + checkpoint_counter st
  ∧ 0 <= checkpoint_counter st < checkpoint_interval a
  ∧ 0 <= processed_count st <= Z.of_nat (length items).
Proof.
  intros HI st. subst st.
  destruct (sequential_cadence items HI (mk_progress w 0 0 []))
    as (I1 & I2 & I3); [simpl; lia|].
  cbn [checkpoint_counter processed_count saved length] in I2, I3.
  split; [lia|]. split; [done | lia].
Qed.

End SequentialMore.

Lemma run_sequential_counter_in_bounds_witness :
  0 <= ThreadSafeCounter.value
         (Worker.games_counter
            (Main.shared
               (Main.run_sequential (Main.mk_args 3 10 8 5 100 false)
                  [(Cases.game 7, Cases.smooth); (Cases.game 8, Cases.smooth);
                   (Cases.game 9, Cases.smooth)]
                  Scenario.two_of_three))) <= 3.
Proof.
  apply (run_sequential_counter_in_bounds
           (Main.mk_args 3 10 8 5 100 false)
           [(Cases.game 7, Cases.smooth); (Cases.game 8, Cases.smooth);
            (Cases.game 9, Cases.smooth)]
           Scenario.two_of_three 3).
  - lia.
  - reflexivity.
  - simpl. lia.
Defined.

Lemma sequential_checkpoint_cadence_witness :
  Main.processed_count
    (Main.sequential (Main.mk_args 10 10 8 2 100 false)
       [(Cases.game 7, Cases.smooth); (Cases.game 8, Cases.smooth);
        (Cases.game 9, Cases.smooth)]
       (Main.mk_progress
          (Worker.mk_world CursorManager.init
             (ThreadSafeCounter.mk 0 (Some 10)) false false []) 0 0 []))
  = Z.of_nat
      (length
         (Main.saved
            (Main.sequential (Main.mk_args 10 10 8 2 100 false)
               [(Cases.game 7, Cases.smooth); (Cases.game 8, Cases.smooth);
                (Cases.game 9, Cases.smooth)]
               (Main.mk_progress
                  (Worker.mk_world CursorManager.init
                     (ThreadSafeCounter.mk 0 (Some 10)) false false [])
                  0 0 [])))) * 2
    + Main.checkpoint_counter
        (Main.sequential (Main.mk_args 10 10 8 2 100 false)
           [(Cases.game 7, Cases.smooth); (Cases.game 8, Cases.smooth);
            (Cases.game 9, Cases.smooth)]
           (Main.mk_progress
              (Worker.mk_world CursorManager.init
                 (ThreadSafeCounter.mk 0 (Some 10)) false false []) 0 0 [])).
Proof.
  apply (sequential_checkpoint_cadence (Main.mk_args 10 10 8 2 100 false)
           [(Cases.game 7, Cases.smooth); (Cases.game 8, Cases.smooth);
            (Cases.game 9, Cases.smooth)]
           (Worker.mk_world CursorManager.init
              (ThreadSafeCounter.mk 0 (Some 10)) false false [])).
  simpl. lia.
Defined.

(** ** main: the batches of the parallel mode *)

Section BatchesMore.

Import Main.

Context {A : Type}.

Lemma take_min_length (n : nat) (l : list A) :
  take (n `min` length l) l = take n l.
Proof.
  destruct (Nat.le_ge_cases n (length l)) as [H|H].
  - by rewrite Nat.min_l.
  - rewrite Nat.min_r by done. by rewrite !take_ge.
Qed.

(** Consecutive chunks of width [b] make up a prefix of the list. *)
Lemma chunks_prefix (b : nat) (l : list A) (m : nat) :
  concat (map (fun k => take b (drop (k * b) l)) (seq 0 m))
  = take (m * b) l.
Proof.
  induction m as [|m IH]; [done|].
  rewrite seq_S, map_app, concat_app, IH. simpl.
  rewrite app_nil_r.
  replace (b + m * b)%nat with (m * b + b)%nat by lia.
  rewrite <- (take_drop (m * b) (take (m * b + b) l)).
  rewrite take_take, Nat.min_l by lia.
  f_equal. rewrite skipn_firstn_comm.
  by replace (m * b + b - m * b)%nat with b by lia.
Qed.

Lemma batches_chunks (batch_size : Z) (l : list A) :
  1 <= batch_size ->
  batches batch_size l
  = map (fun k => take (Z.to_nat batch_size)
                       (drop (k * Z.to_nat batch_size) l))
        (seq 0 (Z.to_nat ((Z.of_nat (length l) + batch_size - 1)
                          / batch_size))).
Proof.
  intros Hb. unfold batches, batch_starts. cbv zeta.
  rewrite map_map. apply map_ext. intros k. unfold slice.
  replace (Z.to_nat (Z.of_nat k * batch_size))
    with (k * Z.to_nat batch_size)%nat by lia.
  rewrite <- (take_min_length (Z.to_nat batch_size)).
  f_equal. rewrite length_drop. lia.
Qed.

(** For a batch size of at least 1, the batches cut by the parallel
    mode are consecutive, non-empty, at most [batch_size] long, and
    put back together give the list: every remaining game is in
    exactly one batch, in order. *)
Theorem batches_partition (batch_size : Z) (l : list A) :
  1 <= batch_size ->
  concat (batches batch_size l) = l
  ∧ Forall (fun batch =>
              (1 <= length batch)%nat
              ∧ Z.of_nat (length batch) <= batch_size)
           (batches batch_size l)
  ∧ Z.of_nat (length (batches batch_size l))
    = (Z.of_nat (length l) + batch_size - 1) / batch_size.
Proof.
  intros Hb.
  pose proof (Z.mul_div_le (Z.of_nat (length l) + batch_size - 1)
                batch_size ltac:(lia)) as Hlo.
  pose proof (Z.mul_succ_div_gt (Z.of_nat (length l) + batch_size - 1)
                batch_size ltac:(lia)) as Hhi.
  pose proof (Z.div_pos (Z.of_nat (length l) + batch_size - 1)
                batch_size ltac:(lia) ltac:(lia)) as Hq.
  rewrite batches_chunks by done.
  set (q := (Z.of_nat (length l) + batch_size - 1) / batch_size) in *.
  set (b := Z.to_nat batch_size).
  assert (Hb' : Z.of_nat b = batch_size) by lia.
  split; [|split].
  - rewrite chunks_prefix. apply take_ge. nia.
  - apply Forall_forall. intros batch Hin.
    apply list_elem_of_fmap in Hin as (k & -> & Hk).
    apply elem_of_seq in Hk.
    assert (Hlt : (k * b < length l)%nat) by nia.
    rewrite length_take, length_drop. lia.
  - rewrite length_map, length_seq. lia.
Qed.

End BatchesMore.

Lemma batches_partition_witness :
  concat (Main.batches 2 [1; 2; 3; 4; 5]%nat) = [1; 2; 3; 4; 5]%nat.
Proof.
  apply (batches_partition 2 [1; 2; 3; 4; 5]%nat). lia.
Defined.

(** ** processar_um_jogo: validity of what is processed, and the sets *)

Section WorkerValidity.

Import Worker.

Variable e : env.
Variable max_reviews : Z.

Lemma valid_game_inversion (d : details) :
  _is_valid_game d = Some true ->
  dtype d = Some "game"%string
  ∧ truthy_opt_str (dname d) = true
  ∧ forall l, categories d = CategoriesList l ->
      forall c, c ∈ l -> c ≠ CatDict (Some 21).
Proof.
  unfold _is_valid_game.
  destruct (dtype d) as [ty|]; [|done].
  destruct (String.eqb_spec ty "game") as [->|Hne].
  - destruct (truthy_opt_str (dname d)); [|done]. simpl.
    destruct (categories d) as [|l|]; [by intros _ | | done].
    intros [= Hex]. split; [done|]. split; [done|].
    intros l' [= <-] c Hc ->.
    apply negb_true_iff in Hex.
    assert (Hin : existsb is_dlc l = true); [|congruence].
    apply existsb_exists. exists (CatDict (Some 21)).
    split; [by apply list_elem_of_In | done].
  - intros H. exfalso.
    repeat (destruct ty as [|[[|] [|] [|] [|] [|] [|] [|] [|]] ty];
            try done).
Qed.

Lemma try_block_true (appid : Z) (w w' : world) :
  try_block e max_reviews appid w = Returned true w' ->
  exists d : details,
    fetched e = FetchPayload d ∧ _is_valid_game d = Some true
    ∧ save_details_ok e = true.
Proof.
  unfold try_block.
  destruct (fetched e) as [| |d] eqn:Hf; [done | done |].
  destruct (goal_reached (observe e 2 w)); [done|].
  destruct (_is_valid_game d) as [[|]|] eqn:Hv; [|done|done].
  destruct (ThreadSafeCounter.increment (games_counter (observe e 2 w)))
    as [[success v] c].
  destruct success; simpl; [|done].
  destruct (goal_reached w || (signals e 2).2 || (signals e 3).2);
    [done|].
  destruct (save_details_ok e) eqn:Hs; simpl; [|done].
  intros _. by exists d.
Qed.

(** [processar_um_jogo] returns [True], with the id in
    [processed_appids], only for an item whose payload was fetched,
    is of type ["game"], has a non-empty name, carries no category
    dictionary with id 21 (a DLC), and was written to the details
    file. *)
Theorem processed_only_if_valid_and_saved (app : CursorManager.game)
    (w : world) :
  (processar_um_jogo e max_reviews app w).1 = true ->
  exists (appid : Z) (d : details),
    CursorManager.appid app = Some appid
    ∧ fetched e = FetchPayload d
    ∧ dtype d = Some "game"%string
    ∧ truthy_opt_str (dname d) = true
    ∧ (forall l, categories d = CategoriesList l ->
         forall c, c ∈ l -> c ≠ CatDict (Some 21))
    ∧ save_details_ok e = true
    ∧ appid ∈ CursorManager.processed_appids
                (cursor_manager (processar_um_jogo e max_reviews app w).2).
Proof.
  destruct (processar_um_jogo_cases e max_reviews app w)
    as [-> | (appid & cm & Happ & _ & _ & _ & ->)]; [done|].
  intros Htrue.
  pose proof (after_reserve_cursor_manager e max_reviews appid
                (with_cm (observe e 0 w) cm)) as Hcm.
  simpl in Hcm. rewrite Htrue in Hcm.
  unfold after_reserve in Htrue.
  destruct (limit_reached _); [done|].
  destruct (try_block e max_reviews appid (with_cm (observe e 0 w) cm))
    as [[|] w'|w'] eqn:Htry; try done.
  destruct (try_block_true _ _ _ Htry) as (d & Hf & Hv & Hs).
  destruct (valid_game_inversion d Hv) as (H1 & H2 & H3).
  exists appid, d. repeat (split; [done|]).
  rewrite Hcm. simpl. set_solver.
Qed.

(** The manager after a call is the manager before it after a short
    sequence of its own operations in which every terminal marking
    targets a reserved id. *)
Lemma processar_manager_ops (app : CursorManager.game) (w : world) :
  exists ops : list CursorManager.op,
    cursor_manager (processar_um_jogo e max_reviews app w).2
    = CursorManager.run (cursor_manager w) ops
    ∧ Protocol.guarded (cursor_manager w) ops = true.
Proof.
  destruct (processar_um_jogo_cases e max_reviews app w)
    as [-> | (appid & cm & _ & _ & _ & Hres & ->)]; [by exists []|].
  pose proof (after_reserve_cursor_manager e max_reviews appid
                (with_cm (observe e 0 w) cm)) as Hcm.
  simpl in Hcm.
  assert (Hin : appid ∈ CursorManager.reserved_appids cm).
  { apply reserve_granted_sets in Hres as [_ ->]. simpl. set_solver. }
  assert (Hrun : forall o,
            CursorManager.run (cursor_manager w)
              [CursorManager.Reserve appid; o]
            = (CursorManager.step cm o).2).
  { intros o. unfold CursorManager.run. simpl. rewrite Hres.
    by destruct (CursorManager.step cm o). }
  assert (Hg : forall b,
            Protocol.guarded (cursor_manager w)
              [CursorManager.Reserve appid;
               CursorManager.MarkProcessed appid b] = true).
  { intros b. simpl. rewrite Hres. simpl.
    by rewrite bool_decide_eq_true_2. }
  destruct (after_reserve e max_reviews appid _).1.
  - exists [CursorManager.Reserve appid;
            CursorManager.MarkProcessed appid true].
    by rewrite Hrun, Hcm.
  - destruct Hcm as [Hcm|Hcm].
    + exists [CursorManager.Reserve appid;
              CursorManager.MarkProcessed appid false].
      by rewrite Hrun, Hcm.
    + exists [CursorManager.Reserve appid; CursorManager.Release appid].
      by rewrite Hrun, Hcm.
Qed.

(** A call of [processar_um_jogo] keeps the three sets pairwise apart:
    when no id is both processed and failed and no reserved id is
    processed or failed before the call, the same holds after it. *)
Theorem processar_um_jogo_keeps_sets_apart (app : CursorManager.game)
    (w : world) :
  CursorManager.processed_appids (cursor_manager w)
  ## CursorManager.failed_appids (cursor_manager w) ->
  CursorManager.reserved_appids (cursor_manager w)
  ## CursorManager.processed_appids (cursor_manager w)
     ∪ CursorManager.failed_appids (cursor_manager w) ->
  let cm' := cursor_manager (processar_um_jogo e max_reviews app w).2 in
  CursorManager.processed_appids cm' ## CursorManager.failed_appids cm'
  ∧ CursorManager.reserved_appids cm'
    ## CursorManager.processed_appids cm'
       ∪ CursorManager.failed_appids cm'.
Proof.
  intros Hd Ha cm'. subst cm'.
  destruct (processar_manager_ops app w) as (ops & -> & Hg).
  split; [by apply guarded_invariant | by apply run_keeps_apart].
Qed.

End WorkerValidity.

Lemma processed_only_if_valid_and_saved_witness :
  exists (appid : Z) (d : Worker.details),
    CursorManager.appid (Cases.game 7) = Some appid
    ∧ Worker.fetched Cases.smooth = Worker.FetchPayload d
    ∧ Worker.dtype d = Some "game"%string.
Proof.
  destruct (processed_only_if_valid_and_saved Cases.smooth 10
              (Cases.game 7) Scenario.two_of_three)
    as (appid & d & H1 & H2 & H3 & _); [reflexivity|].
  by exists appid, d.
Defined.

Lemma processar_um_jogo_keeps_sets_apart_witness :
  CursorManager.processed_appids
    (Worker.cursor_manager
       (Worker.processar_um_jogo Cases.smooth 10 (Cases.game 7)
          Scenario.two_of_three).2)
  ## CursorManager.failed_appids
       (Worker.cursor_manager
          (Worker.processar_um_jogo Cases.smooth 10 (Cases.game 7)
             Scenario.two_of_three).2).
Proof.
  apply (processar_um_jogo_keeps_sets_apart Cases.smooth 10
           (Cases.game 7) Scenario.two_of_three).
  - simpl. set_solver.
  - simpl. set_solver.
Defined.

Lemma get_app_details_bounded_witness :
  Details.get_app_details
    (Details.mk_env true (fun _ => false) (fun _ _ => Cases.dead_network))
    Cases.pool
  = (Worker.FetchNothing, Cases.pool, []).
Proof.
  by apply (get_app_details_bounded
              (Details.mk_env true (fun _ => false)
                 (fun _ _ => Cases.dead_network)) Cases.pool).
Defined.
